(** * zooManagement.cpp: a shallow embedding and its verified properties

    The program reads a catalogue of candidate names grouped by species
    ([animalNames.txt]) and a batch of arriving animals
    ([arrivingAnimals.txt]), gives every arrival a randomly drawn name of
    its species and appends the enriched records to [newAnimals.txt],
    which it finally prints.

    The embedding follows the source function by function.  Text is
    [string]; a [std::map<string, vector<string>>] is an association list
    kept in key order (the order in which the program iterates over it);
    the files, the two console streams, the clock and the random number
    generator form an explicit [world] threaded through a state and
    exception monad.  The pieces of the C++ standard library whose
    behaviour is platform dependent ([std::stod], the rendering of a
    [double] by [operator<<], the sequence produced by [rand]) are the
    fields of the class [Platform]. *)

From Stdlib Require Import String Ascii List ZArith NArith Bool Arith Lia.
From Stdlib Require Import DecimalString DecimalZ.
Import ListNotations.

Open Scope string_scope.
Open Scope list_scope.

(* ================================================================== *)
(** * Characters and strings as the standard library treats them *)
(* ================================================================== *)

Module Std.

(** The horizontal tab and the line feed. *)
Definition tab : ascii := ascii_of_nat 9.
Definition newline : ascii := ascii_of_nat 10.
Definition comma : ascii := ","%char.

(** [isspace] in the "C" locale: space, and the control characters
    [\t \n \v \f \r]. *)
Definition isspace (c : ascii) : bool :=
  let n := nat_of_ascii c in
  (n =? 32)%nat || ((9 <=? n)%nat && (n <=? 13)%nat).

(** [isdigit]. *)
Definition isdigit (c : ascii) : bool :=
  let n := nat_of_ascii c in
  (48 <=? n)%nat && (n <=? 57)%nat.

(** [::tolower] in the "C" locale, on one [char]. *)
Definition tolower (c : ascii) : ascii :=
  let n := nat_of_ascii c in
  if (65 <=? n)%nat && (n <=? 90)%nat then ascii_of_nat (n + 32) else c.

(** [std::transform(s.begin(), s.end(), s.begin(), f)]. *)
Fixpoint transform (f : ascii -> ascii) (s : string) : string :=
  match s with
  | EmptyString => EmptyString
  | String c s' => String (f c) (transform f s')
  end.

(** [s.empty()]. *)
Definition empty (s : string) : bool :=
  match s with
  | EmptyString => true
  | String _ _ => false
  end.

(** Membership of a character in the character set of a [find_*_of]
    call. *)
Fixpoint mem_char (c : ascii) (chars : string) : bool :=
  match chars with
  | EmptyString => false
  | String d chars' => Ascii.eqb c d || mem_char c chars'
  end.

(** [s.find_first_not_of(chars)]; [None] stands for [string::npos]. *)
Fixpoint find_first_not_of (chars s : string) : option nat :=
  match s with
  | EmptyString => None
  | String c s' =>
      if mem_char c chars then option_map S (find_first_not_of chars s')
      else Some 0%nat
  end.

(** [s.find_last_not_of(chars)]. *)
Fixpoint find_last_not_of (chars s : string) : option nat :=
  match s with
  | EmptyString => None
  | String c s' =>
      match find_last_not_of chars s' with
      | Some i => Some (S i)
      | None => if mem_char c chars then None else Some 0%nat
      end
  end.

(** [s.substr(pos, len)] is [substring pos len s] of the standard
    library (both stop at the end of [s]); [s.substr(pos)] runs to the
    end. *)
Definition substr_from (pos : nat) (s : string) : string :=
  substring pos (String.length s - pos) s.

(** One [std::getline(stream, line, delim)] on a stream whose unread
    part is [s]: the characters before the first [delim] (which is
    consumed), or all of [s] when there is none. *)
Fixpoint read_until (delim : ascii) (s : string) : string * string :=
  match s with
  | EmptyString => (EmptyString, EmptyString)
  | String c s' =>
      if Ascii.eqb c delim then (EmptyString, s')
      else let (t, r) := read_until delim s' in (String c t, r)
  end.

(** [getline] fails (the stream converts to [false]) exactly when
    nothing is left to read. *)
Definition getline (delim : ascii) (s : string) : option (string * string) :=
  match s with
  | EmptyString => None
  | String _ _ => Some (read_until delim s)
  end.

(** The values the variable takes in [while (getline(stream, x, delim))],
    in order.  Every successful [getline] consumes a character, so
    [length s] iterations are enough. *)
Fixpoint getline_loop (fuel : nat) (delim : ascii) (s : string) : list string :=
  match fuel with
  | O => []
  | S fuel' =>
      match getline delim s with
      | None => []
      | Some (t, r) => t :: getline_loop fuel' delim r
      end
  end.

Definition getlines (delim : ascii) (s : string) : list string :=
  getline_loop (String.length s) delim s.

(** [stream >> word] on a stream whose unread part is [s]: leading
    white space is skipped, then characters are taken up to (not
    including) the next white space.  The result is the word and what is
    left unread; the word is empty when the extraction fails. *)
Fixpoint skip_ws (s : string) : string :=
  match s with
  | EmptyString => EmptyString
  | String c s' => if isspace c then skip_ws s' else s
  end.

Fixpoint take_word (s : string) : string * string :=
  match s with
  | EmptyString => (EmptyString, EmptyString)
  | String c s' =>
      if isspace c then (EmptyString, s)
      else let (w, r) := take_word s' in (String c w, r)
  end.

Definition extract_word (s : string) : string * string :=
  take_word (skip_ws s).

(** The exceptions of the numeric conversions. *)
Inductive exn : Type :=
| invalid_argument
| out_of_range.

(** The value of the digits at the head of [s], continuing the numeral
    whose value so far is [acc]. *)
Fixpoint digits_value (acc : Z) (s : string) : Z :=
  match s with
  | EmptyString => acc
  | String c s' =>
      if isdigit c
      then digits_value (10 * acc + Z.of_nat (nat_of_ascii c - 48)) s'
      else acc
  end.

Definition starts_with_digit (s : string) : bool :=
  match s with
  | EmptyString => false
  | String c _ => isdigit c
  end.

Definition INT_MIN : Z := - 2 ^ 31.
Definition INT_MAX : Z := 2 ^ 31 - 1.

(** [std::stoi(s)]: [strtol] in base 10 (white space, an optional sign,
    digits; what follows the digits is ignored), [invalid_argument] when
    there is no digit to convert and [out_of_range] when the value does
    not fit an [int]. *)
Definition stoi (s : string) : exn + Z :=
  let s1 := skip_ws s in
  let '(neg, s2) :=
    match s1 with
    | String "-"%char s' => (true, s')
    | String "+"%char s' => (false, s')
    | _ => (false, s1)
    end in
  if starts_with_digit s2 then
    let v := digits_value 0 s2 in
    let v := if neg then (- v)%Z else v in
    if ((INT_MIN <=? v) && (v <=? INT_MAX))%Z then inr v else inl out_of_range
  else inl invalid_argument.

(** [stream << n] for an [int]: the decimal numeral, with a minus sign
    for a negative value. *)
Definition put_int (n : Z) : string :=
  NilZero.string_of_int (Z.to_int n).

End Std.

Import Std.

(* ================================================================== *)
(** * [std::map<string, vector<string>>] *)
(* ================================================================== *)

(** The map is the list of its entries in increasing key order, which is
    the order of a range-for over it.  Keys compare as [std::string]
    does: byte by byte, a proper prefix first. *)
Definition catalog : Type := list (string * list string).

(** [m.find(k)]: the entry, or [None] for [m.end()]. *)
Fixpoint map_find (k : string) (m : catalog) : option (string * list string) :=
  match m with
  | [] => None
  | (k', v) :: m' => if String.eqb k' k then Some (k', v) else map_find k m'
  end.

(** [m[k] = v]. *)
Fixpoint map_assign (k : string) (v : list string) (m : catalog) : catalog :=
  match m with
  | [] => [(k, v)]
  | (k', v') :: m' =>
      match String.compare k k' with
      | Lt => (k, v) :: m
      | Eq => (k, v) :: m'
      | Gt => (k', v') :: map_assign k v m'
      end
  end.

(** [m[k].push_back(x)]; [operator[]] creates an empty entry when the
    key is absent. *)
Definition map_push_back (k : string) (x : string) (m : catalog) : catalog :=
  match map_find k m with
  | Some (_, v) => map_assign k (v ++ [x]) m
  | None => map_assign k [x] m
  end.

(** Keys strictly increasing: what every [std::map] satisfies. *)
Fixpoint keys_above (k : string) (m : catalog) : Prop :=
  match m with
  | [] => True
  | (k', _) :: m' => String.compare k k' = Lt /\ keys_above k' m'
  end.

Definition map_wf (m : catalog) : Prop :=
  match m with
  | [] => True
  | (k, _) :: m' => keys_above k m'
  end.

(* ================================================================== *)
(** * The platform *)
(* ================================================================== *)

(** What the program takes from the C++ implementation it is compiled
    with: the type [double] with its conversion from text ([std::stod],
    which throws on failure) and to text ([stream << x] with the stream's
    default formatting), and [rand_seq seed i], the value of the [i]-th
    call of [rand()] after [srand(seed)]. *)
Class Platform : Type := {
  double : Type;
  stod : string -> exn + double;
  put_double : double -> string;
  rand_seq : N -> nat -> N
}.

(* ================================================================== *)
(** * The world and the monad of the program *)
(* ================================================================== *)

(** A file: its bytes and whether the process may read and write it. *)
Record file : Type := {
  f_data : string;
  f_read : bool;
  f_write : bool
}.

(** Everything outside the program that it reads or changes. *)
Record world : Type := {
  files : string -> option file;   (* the working directory *)
  can_create : bool;               (* may a new file be created there *)
  clock : Z;                       (* what [time(NULL)] returns *)
  rand_seed : N;                   (* the seed last given to [srand] *)
  rand_calls : nat;                (* calls of [rand] since then *)
  cerr : string;                   (* bytes written to [std::cerr] *)
  cout : string                    (* bytes written to [std::cout] *)
}.

Definition with_files (fs : string -> option file) (w : world) : world :=
  {| files := fs; can_create := can_create w; clock := clock w;
     rand_seed := rand_seed w; rand_calls := rand_calls w;
     cerr := cerr w; cout := cout w |}.

Definition with_rand (seed : N) (calls : nat) (w : world) : world :=
  {| files := files w; can_create := can_create w; clock := clock w;
     rand_seed := seed; rand_calls := calls;
     cerr := cerr w; cout := cout w |}.

Definition with_cerr (s : string) (w : world) : world :=
  {| files := files w; can_create := can_create w; clock := clock w;
     rand_seed := rand_seed w; rand_calls := rand_calls w;
     cerr := s; cout := cout w |}.

Definition with_cout (s : string) (w : world) : world :=
  {| files := files w; can_create := can_create w; clock := clock w;
     rand_seed := rand_seed w; rand_calls := rand_calls w;
     cerr := cerr w; cout := s |}.

(** A computation either returns a value or ends the process with an
    exception nobody catches (the program has no [try]); both leave a
    world behind. *)
Inductive outcome (A : Type) : Type :=
| Returns (a : A) (w : world)
| Uncaught (e : exn) (w : world).

Arguments Returns {A} a w.
Arguments Uncaught {A} e w.

Definition io (A : Type) : Type := world -> outcome A.

Definition ret {A : Type} (a : A) : io A := fun w => Returns a w.

Definition throw {A : Type} (e : exn) : io A := fun w => Uncaught e w.

Definition bind {A B : Type} (c : io A) (k : A -> io B) : io B :=
  fun w =>
    match c w with
    | Returns a w' => k a w'
    | Uncaught e w' => Uncaught e w'
    end.

Declare Scope io_scope.
Delimit Scope io_scope with io.
Bind Scope io_scope with io.

Notation "x <- c ;; k" := (bind c (fun x => k))
  (at level 61, c at next level, right associativity) : io_scope.
Notation "c ;; k" := (bind c (fun _ => k))
  (at level 61, right associativity) : io_scope.

Open Scope io_scope.

(** A range-for whose body updates a value carried from one iteration
    to the next. *)
Fixpoint fold_io {A S : Type} (body : S -> A -> io S) (l : list A) (st : S)
  : io S :=
  match l with
  | [] => ret st
  | x :: l' => st' <- body st x ;; fold_io body l' st'
  end.

(** A range-for run for its effects only. *)
Fixpoint for_each {A : Type} (body : A -> io unit) (l : list A) : io unit :=
  match l with
  | [] => ret tt
  | x :: l' => body x ;; for_each body l'
  end.

(** A range-for by reference that rewrites every element in place. *)
Fixpoint for_each_ref {A : Type} (body : A -> io A) (l : list A)
  : io (list A) :=
  match l with
  | [] => ret []
  | x :: l' => y <- body x ;; l'' <- for_each_ref body l' ;; ret (y :: l'')
  end.

(** [std::endl] written to a stream. *)
Definition endl : string := String newline EmptyString.

Definition cerr_put (s : string) : io unit :=
  fun w => Returns tt (with_cerr (cerr w ++ s) w).

Definition cout_put (s : string) : io unit :=
  fun w => Returns tt (with_cout (cout w ++ s) w).

(** [ifstream file(path)]: the bytes of the file when it can be opened
    for reading, [None] when the stream is in a failed state. *)
Definition ifstream (path : string) : io (option string) :=
  fun w =>
    match files w path with
    | Some f => Returns (if f_read f then Some (f_data f) else None) w
    | None => Returns None w
    end.

Definition set_file (path : string) (f : file) (fs : string -> option file)
  : string -> option file :=
  fun p => if String.eqb p path then Some f else fs p.

(** [ofstream file(path, ios::app)]: succeeds on an existing writable
    file, and on a missing one when it can be created (it is then
    created empty). *)
Definition ofstream_app (path : string) : io bool :=
  fun w =>
    match files w path with
    | Some f => Returns (f_write f) w
    | None =>
        if can_create w
        then Returns true
               (with_files
                  (set_file path
                     {| f_data := ""; f_read := true; f_write := true |}
                     (files w)) w)
        else Returns false w
    end.

(** [file << s] on a stream opened in append mode on [path]. *)
Definition file_put (path : string) (s : string) : io unit :=
  fun w =>
    match files w path with
    | Some f =>
        Returns tt
          (with_files
             (set_file path
                {| f_data := f_data f ++ s; f_read := f_read f;
                   f_write := f_write f |}
                (files w)) w)
    | None => Returns tt w
    end.

(** [time(NULL)]. *)
Definition time : io Z := fun w => Returns (clock w) w.

(** [static_cast<unsigned int>(t)]. *)
Definition to_unsigned (t : Z) : N := Z.to_N (t mod 2 ^ 32).

(** [srand(seed)]. *)
Definition srand (seed : N) : io unit :=
  fun w => Returns tt (with_rand seed 0 w).

(** [rand()]. *)
Definition rand `{Platform} : io N :=
  fun w =>
    Returns (rand_seq (rand_seed w) (rand_calls w))
      (with_rand (rand_seed w) (S (rand_calls w)) w).

(* ================================================================== *)
(** * The program *)
(* ================================================================== *)

(** [struct Animal]. *)
Record Animal `{Platform} : Type := {
  age : Z;
  species : string;
  birthSeason : string;
  color : string;
  weight : double;
  origin : string;
  name : string
}.

Definition set_name `{Platform} (a : Animal) (n : string) : Animal :=
  {| age := age a; species := species a; birthSeason := birthSeason a;
     color := color a; weight := weight a; origin := origin a; name := n |}.

(** The set of characters [trim] removes: [" \t"]. *)
Definition blanks : string := String " " (String tab EmptyString).

(** [trim]. *)
Definition trim (s : string) : string :=
  match find_first_not_of blanks s with
  | None => ""
  | Some start =>
      match find_last_not_of blanks s with
      | Some end_ => substring start (end_ - start + 1) s
      | None => "" (* not reached: a first such character has a last one *)
      end
  end.

(** ** [loadAnimalNames] *)

(** The test of line 56: the line ends with ["Names:"] or ["names:"]. *)
Definition is_header (line : string) : bool :=
  (6 <=? String.length line)%nat &&
  (String.eqb (substr_from (String.length line - 6) line) "Names:" ||
   String.eqb (substr_from (String.length line - 6) line) "names:").

(** The inner loop over the names of a data line (lines 64 to 68). *)
Definition add_name (currentSpecies : string) (namesMap : catalog)
  (name : string) : catalog :=
  let name := trim name in
  if negb (empty name) && negb (empty currentSpecies)
  then map_push_back currentSpecies name namesMap
  else namesMap.

(** The body of the loop over the lines of the file, on the pair of
    [namesMap] and [currentSpecies]. *)
Definition names_line (st : catalog * string) (line : string)
  : catalog * string :=
  let '(namesMap, currentSpecies) := st in
  let line := trim line in
  if empty line then st
  else if is_header line then
    let currentSpecies := trim (substring 0 (String.length line - 6) line) in
    (map_assign currentSpecies [] namesMap, currentSpecies)
  else
    (fold_left (add_name currentSpecies) (getlines comma line) namesMap,
     currentSpecies).

Definition loadAnimalNames (filename : string) : io catalog :=
  file <- ifstream filename ;;
  match file with
  | None =>
      cerr_put ("Error opening file: " ++ filename ++ endl) ;;
      ret []
  | Some text =>
      ret (fst (fold_left names_line (getlines newline text) ([], "")))
  end.

(** ** [loadArrivingAnimals] *)

(** [parts[i]], on a vector known to be long enough. *)
Definition part (i : nat) (parts : list string) : string := nth i parts "".

(** Lines 107 to 123: the record built from the fields of a line. *)
Definition make_animal `{Platform} (parts : list string) : exn + Animal :=
  let '(ageStr, unread) := extract_word (part 0 parts) in
  match stoi ageStr with
  | inl e => inl e
  | inr age_ =>
      let species_ :=
        match getline newline unread with
        | Some (s, _) => s
        | None => ""
        end in
      match stod (part 3 parts) with
      | inl e => inl e
      | inr weight_ =>
          inr {| age := age_;
                 species := trim species_;
                 birthSeason := part 1 parts;
                 color := part 2 parts;
                 weight := weight_;
                 origin := part 4 parts ++ " " ++ part 5 parts;
                 name := "" |}
      end
  end.

(** The body of the loop over the lines of the file, on [animals]. *)
Definition arrival_line `{Platform} (animals : list Animal) (line : string)
  : io (list Animal) :=
  let line := trim line in
  if empty line then ret animals
  else
    let parts := map trim (getlines comma line) in
    if (List.length parts <? 6)%nat then
      cerr_put ("Invalid record: " ++ line ++ endl) ;;
      ret animals
    else
      match make_animal parts with
      | inl e => throw e
      | inr animal => ret (animals ++ [animal])
      end.

Definition loadArrivingAnimals `{Platform} (filename : string)
  : io (list Animal) :=
  file <- ifstream filename ;;
  match file with
  | None =>
      cerr_put ("Error opening file: " ++ filename ++ endl) ;;
      ret []
  | Some text => fold_io arrival_line (getlines newline text) []
  end.

(** ** [assignName] *)

(** The case-insensitive scan of lines 138 to 147 over the entries not
    yet visited; [None] when the loop ends without a match. *)
Fixpoint scan_ignoring_case (species : string) (namesMap rest : catalog)
  : option (string * list string) :=
  match rest with
  | [] => None
  | (key, _) :: rest' =>
      let keyLower := transform tolower key in
      let speciesLower := transform tolower species in
      if String.eqb keyLower speciesLower then map_find key namesMap
      else scan_ignoring_case species namesMap rest'
  end.

(** The iterator [it] when line 149 is reached. *)
Definition lookup_species (species : string) (namesMap : catalog)
  : option (string * list string) :=
  match map_find species namesMap with
  | Some entry => Some entry
  | None => scan_ignoring_case species namesMap namesMap
  end.

Definition assignName `{Platform} (species : string) (namesMap : catalog)
  : io string :=
  match lookup_species species namesMap with
  | Some (_, candidates) =>
      if negb (Nat.eqb (List.length candidates) 0) then
        r <- rand ;;
        let index := N.to_nat (r mod N.of_nat (List.length candidates)) in
        ret (nth index candidates "")
      else ret "Unnamed"
  | None => ret "Unnamed"
  end.

(** ** [updateZooPopulation] *)

(** The text written for one record (lines 169 to 175). *)
Definition record_line `{Platform} (animal : Animal) : string :=
  name animal ++ ", " ++
  species animal ++ ", " ++
  put_int (age animal) ++ ", " ++
  birthSeason animal ++ ", " ++
  color animal ++ ", " ++
  put_double (weight animal) ++ ", " ++
  origin animal ++ endl.

Definition updateZooPopulation `{Platform} (filename : string)
  (animals : list Animal) : io unit :=
  opened <- ofstream_app filename ;;
  if negb opened then
    cerr_put ("Error opening file for writing: " ++ filename ++ endl)
  else
    for_each (fun animal => file_put filename (record_line animal)) animals.

(** ** [main] *)

(** Lines 182 to 193: seeding, loading, and the naming loop.  The result
    is [arrivingAnimals] as it is handed to [updateZooPopulation]. *)
Definition named_arrivals `{Platform} : io (list Animal) :=
  now <- time ;;
  srand (to_unsigned now) ;;
  animalNamesMap <- loadAnimalNames "animalNames.txt" ;;
  arrivingAnimals <- loadArrivingAnimals "arrivingAnimals.txt" ;;
  for_each_ref
    (fun animal =>
       n <- assignName (species animal) animalNamesMap ;;
       ret (set_name animal n))
    arrivingAnimals.

(** Lines 201 to 213: the display of the report; the value is the exit
    status. *)
Definition show_population : io Z :=
  populationFile <- ifstream "newAnimals.txt" ;;
  match populationFile with
  | None =>
      cerr_put ("Error opening newAnimals file." ++ endl) ;;
      ret 1%Z
  | Some text =>
      cout_put (endl ++ "Updated Zoo Population:" ++ endl) ;;
      for_each (fun line => cout_put (line ++ endl)) (getlines newline text) ;;
      ret 0%Z
  end.

Definition main `{Platform} : io Z :=
  arrivingAnimals <- named_arrivals ;;
  updateZooPopulation "newAnimals.txt" arrivingAnimals ;;
  cout_put ("Zoo population updated successfully." ++ endl) ;;
  show_population.

(* ================================================================== *)
(** * A small platform and sample files *)
(* ================================================================== *)

(** A platform on which the program can be run inside Rocq: weights are
    exact decimal numbers with one digit after the point (counted in
    tenths), and [rand] is the generator the C standard gives as an
    example. *)
Module Sample.

(** The digit after the decimal point at the head of [s], if any. *)
Definition tenths_digit (s : string) : Z :=
  match s with
  | String "."%char (String c _) =>
      if isdigit c then Z.of_nat (nat_of_ascii c - 48) else 0%Z
  | _ => 0%Z
  end.

Fixpoint skip_digits (s : string) : string :=
  match s with
  | EmptyString => EmptyString
  | String c s' => if isdigit c then skip_digits s' else s
  end.

Definition stod10 (s : string) : exn + Z :=
  let s1 := skip_ws s in
  let '(neg, s2) :=
    match s1 with
    | String "-"%char s' => (true, s')
    | String "+"%char s' => (false, s')
    | _ => (false, s1)
    end in
  if starts_with_digit s2 then
    let v := (10 * digits_value 0 s2 + tenths_digit (skip_digits s2))%Z in
    inr (if neg then (- v)%Z else v)
  else inl invalid_argument.

Definition put10 (t : Z) : string :=
  (if (t <? 0)%Z then "-" else "") ++
  put_int (Z.abs t / 10) ++
  (if (Z.abs t mod 10 =? 0)%Z then "" else "." ++ put_int (Z.abs t mod 10)).

Fixpoint lcg (seed : N) (i : nat) : N :=
  match i with
  | O => ((seed * 1103515245 + 12345) mod 2 ^ 32)%N
  | S i' => ((lcg seed i' * 1103515245 + 12345) mod 2 ^ 32)%N
  end.

Definition rand_lcg (seed : N) (i : nat) : N :=
  ((lcg seed i / 65536) mod 32768)%N.

#[export] Instance platform : Platform := {|
  double := Z;
  stod := stod10;
  put_double := put10;
  rand_seq := rand_lcg
|}.

(** The files of the end-to-end scenario. *)
Definition names_txt : string :=
  "Hyena Names:" ++ endl ++ "Spot, Scar" ++ endl ++
  "Lion Names:" ++ endl ++ "Leo, Nala" ++ endl.

Definition arrivals_txt : string :=
  "4 Hyena, born in spring, brown, 45.5, savanna, east" ++ endl.

Definition readable (text : string) : file :=
  {| f_data := text; f_read := true; f_write := true |}.

Definition directory (names arrivals : string) (report : option file)
  : string -> option file :=
  fun p =>
    if String.eqb p "animalNames.txt" then Some (readable names)
    else if String.eqb p "arrivingAnimals.txt" then Some (readable arrivals)
    else if String.eqb p "newAnimals.txt" then report
    else None.

Definition start (fs : string -> option file) (now : Z) : world :=
  {| files := fs; can_create := true; clock := now;
     rand_seed := 1; rand_calls := 0; cerr := ""; cout := "" |}.

End Sample.

(* ================================================================== *)
(** * The vocabulary of the properties *)
(* ================================================================== *)

(** The comparison of the fallback scan: the key and the species are
    equal once both are lowercased. *)
Definition same_ignoring_case (species : string)
  (entry : string * list string) : bool :=
  String.eqb (transform tolower (fst entry)) (transform tolower species).

(** The candidate that the draw [r] selects. *)
Definition drawn (r : N) (candidates : list string) : string :=
  nth (N.to_nat (r mod N.of_nat (List.length candidates))) candidates "".


(** Catalogues used as concrete inputs. *)
Definition lions : catalog := [("Lion", ["Leo"; "Nala"])].

Definition two_hyenas : catalog :=
  [("Hyena", ["Spot"; "Scar"]); ("hyena", ["Rex"])].

Definition empty_Hyena : catalog :=
  [("Hyena", []); ("hyena", ["Rex"])].

(** The concatenation of a list of pieces of text. *)
Definition join_all (l : list string) : string :=
  fold_right String.append "" l.

(** [s] holds no line feed. *)
Definition one_line (s : string) : Prop := mem_char newline s = false.

(** The world [w'] is [w] with [s] appended to [std::cerr]. *)
Definition logged (s : string) (w w' : world) : Prop :=
  files w' = files w /\ can_create w' = can_create w /\
  clock w' = clock w /\ rand_seed w' = rand_seed w /\
  rand_calls w' = rand_calls w /\ cout w' = cout w /\
  cerr w' = (cerr w ++ s)%string.

(** The catalogue and the current species after the lines [ls] of a
    names file. *)
Definition names_after (ls : list string) : catalog * string :=
  fold_left names_line ls ([], "").

(** A line of a names file that is read as data or skipped, not as a
    header. *)
Definition not_header (line : string) : Prop := is_header (trim line) = false.

(** The comma-separated fields of a line of the arrivals file. *)
Definition fields (line : string) : list string :=
  map trim (getlines comma (trim line)).

(** A line that is not blank and has fewer than six fields. *)
Definition too_short (line : string) : bool :=
  negb (empty (trim line)) && (List.length (fields line) <? 6)%nat.

(** A line that is not blank and has at least six fields. *)
Definition six_fields (line : string) : bool :=
  negb (empty (trim line)) && (6 <=? List.length (fields line))%nat.

(** The diagnostic for a line with too few fields. *)
Definition diagnostic (line : string) : string :=
  "Invalid record: " ++ trim line ++ endl.

(** The age and the weight of a line can be converted. *)
Definition parseable `{Platform} (line : string) : Prop :=
  exists (n : Z) (d : double),
    stoi (fst (extract_word (part 0 (fields line)))) = inr n /\
    stod (part 3 (fields line)) = inr d.

(** The record that a line with six fields yields. *)
Definition record_of `{Platform} (line : string) (animal : Animal) : Prop :=
  make_animal (fields line) = inr animal.

(** Sample input files. *)
Definition bare_header_txt : string :=
  "Hyena Names:" ++ endl ++ "Spot, Scar" ++ endl ++
  "Names:" ++ endl ++ "Rex, Max" ++ endl ++ "Tom" ++ endl.

Definition mixed_arrivals_txt : string :=
  "a,b,c" ++ endl ++ "  " ++ endl ++
  "-3 lion cub, x,, 12,e,f,g,h" ++ endl ++ "4" ++ endl.

(** What [ifstream] finds under a path. *)
Definition readable_text (w : world) (path : string) : option string :=
  match files w path with
  | Some f => if f_read f then Some (f_data f) else None
  | None => None
  end.

(** The lines of an input file; none when it cannot be opened. *)
Definition lines_of (o : option string) : list string :=
  match o with
  | Some text => getlines newline text
  | None => []
  end.

(** The file that [ofstream(path, ios::app)] would write to: the one
    under [path] if it is writable, a new empty one if there is none and
    one may be created. *)
Definition append_target (w : world) (path : string) : option file :=
  match files w path with
  | Some f => if f_write f then Some f else None
  | None =>
      if can_create w
      then Some {| f_data := ""; f_read := true; f_write := true |}
      else None
  end.

Definition with_data (f : file) (text : string) : file :=
  {| f_data := text; f_read := f_read f; f_write := f_write f |}.

(** The names [assignName] can return for a species: the candidates of
    the entry the lookup settles on, or ["Unnamed"] when there is no such
    entry or it has no candidate. *)
Definition names_for (m : catalog) (species_ : string) (n : string) : Prop :=
  match lookup_species species_ m with
  | Some (_, c :: cs) => In n (c :: cs)
  | _ => n = "Unnamed"
  end.

(** [n] is a candidate somewhere in the catalogue. *)
Definition candidate (m : catalog) (n : string) : Prop :=
  exists key candidates, In (key, candidates) m /\ In n candidates.

(** Every candidate of the catalogue satisfies [P]. *)
Definition all_candidates (P : string -> Prop) (m : catalog) : Prop :=
  Forall (fun entry => Forall P (snd entry)) m.

(** The record [a'] is [a] with a name that [assignName] can return. *)
Definition named `{Platform} (m : catalog) (a a' : Animal) : Prop :=
  exists n, a' = set_name a n /\ names_for m (species a) n.

(** The number of lines the display loop of [main] prints for a text. *)
Definition line_count (text : string) : nat :=
  List.length (getlines newline text).

(** The text of a record without the final line feed. *)
Definition record_text `{Platform} (animal : Animal) : string :=
  name animal ++ ", " ++
  species animal ++ ", " ++
  put_int (age animal) ++ ", " ++
  birthSeason animal ++ ", " ++
  color animal ++ ", " ++
  put_double (weight animal) ++ ", " ++
  origin animal.

(** The naming loop of [main] (lines 191 to 193). *)
Definition name_all `{Platform} (m : catalog) : list Animal -> io (list Animal) :=
  for_each_ref
    (fun animal => n <- assignName (species animal) m ;; ret (set_name animal n)).

(** A text that is empty or ends with the delimiter: the next
    [getline] starts a fresh item after it. *)
Fixpoint complete (delim : ascii) (s : string) : bool :=
  match s with
  | EmptyString => true
  | String c EmptyString => Ascii.eqb c delim
  | String _ s' => complete delim s'
  end.

(** The arrival of the end-to-end scenario and the record it yields on
    a platform where its weight converts to [d]. *)
Definition hyena_line : string :=
  "4 Hyena, born in spring, brown, 45.5, savanna, east".

Definition hyena `{Platform} (d : double) : Animal :=
  {| age := 4; species := "Hyena"; birthSeason := "born in spring";
     color := "brown"; weight := d; origin := "savanna east"; name := "" |}.

Definition zoo_catalog : catalog :=
  [("Hyena", ["Spot"; "Scar"]); ("Lion", ["Leo"; "Nala"])].

(** A names file that yields [empty_Hyena]. *)
Definition empty_Hyena_txt : string :=
  "Hyena Names:" ++ endl ++ "hyena names:" ++ endl ++ "Rex" ++ endl.

(* ------------------------------------------------------------------ *)
(** ** Vocabulary of the further properties *)
(* ------------------------------------------------------------------ *)

(** A blank is a character of [blanks]: a space or a tab. *)
Definition is_blank (c : ascii) : bool := mem_char c blanks.

Fixpoint all_blank (s : string) : bool :=
  match s with
  | EmptyString => true
  | String c s' => is_blank c && all_blank s'
  end.

Definition starts_blank (s : string) : bool :=
  match s with
  | EmptyString => false
  | String c _ => is_blank c
  end.

Fixpoint ends_blank (s : string) : bool :=
  match s with
  | EmptyString => false
  | String c EmptyString => is_blank c
  | String _ s' => ends_blank s'
  end.

(** [s] without its leading blanks, and without its trailing ones. *)
Fixpoint drop_leading (s : string) : string :=
  match s with
  | EmptyString => EmptyString
  | String c s' => if is_blank c then drop_leading s' else s
  end.

Fixpoint drop_trailing (s : string) : string :=
  match s with
  | EmptyString => EmptyString
  | String c s' =>
      match drop_trailing s' with
      | EmptyString => if is_blank c then EmptyString else String c EmptyString
      | r => String c r
      end
  end.


(** An arrivals file whose third line has an age that is no number. *)
Definition bad_age_txt : string :=
  "short" ++ endl ++ "4 Hyena, spring, brown, 45.5, savanna, east" ++ endl ++
  "x Lion, summer, gold, 190, plains, west" ++ endl ++ "also short" ++ endl.

(** The species a line of the names file announces, when it is a
    header. *)
Definition header_species (line : string) : option string :=
  let l := trim line in
  if is_header l
  then Some (trim (substring 0 (String.length l - 6) l))
  else None.

(** The names a data line contributes: its comma-separated pieces,
    trimmed, without the empty ones. *)
Definition names_on (line : string) : list string :=
  filter (fun n => negb (empty n)) (map trim (getlines comma (trim line))).

(** What holds of every candidate the loader stores. *)
Definition clean_name (n : string) : Prop :=
  n <> "" /\ mem_char comma n = false /\ one_line n /\
  starts_blank n = false /\ ends_blank n = false.

(** The keys of a catalogue, in iteration order. *)
Definition keys (m : catalog) : list string := map fst m.

(** A names file with two sections for the same species. *)
Definition two_sections_txt : string :=
  "Lion Names:" ++ endl ++ "Leo" ++ endl ++
  "Bear Names:" ++ endl ++ "Bruno" ++ endl ++
  "Lion Names:" ++ endl ++ " Nala ,, Simba" ++ endl ++ "Kiara," ++ endl.

(** A catalogue with three spellings of one species. *)
Definition three_hyenas : catalog :=
  [("HYENA", ["Shenzi"]); ("Hyena", ["Spot"]); ("hyena", ["Rex"])].

(** The species of the record has an entry with candidates, so that
    [assignName] draws a random number for it. *)
Definition has_candidates `{Platform} (m : catalog) (animal : Animal) : bool :=
  match lookup_species (species animal) m with
  | Some (_, _ :: _) => true
  | _ => false
  end.

(** The world a computation leaves behind, however it ends. *)
Definition final_world {A : Type} (o : outcome A) : world :=
  match o with
  | Returns _ w => w
  | Uncaught _ w => w
  end.

(** What the display loop prints for a text: its lines, each followed by
    a line feed. *)
Definition printed (text : string) : string :=
  join_all (map (fun line => line ++ endl)%string (getlines newline text)).

(** A report that may be read but not written. *)
Definition read_only (text : string) : file :=
  {| f_data := text; f_read := true; f_write := false |}.

(** The check of [stoi] that the value fits an [int]. *)
Definition fits_int (v : Z) : bool := ((INT_MIN <=? v) && (v <=? INT_MAX))%Z.

(** What a computation hands back, without the world. *)
Definition result {A : Type} (o : outcome A) : exn + A :=
  match o with
  | Returns a _ => inr a
  | Uncaught e _ => inl e
  end.

(** A working directory without names file, with the arrivals file
    [bad_age_txt] and a report that can be read and written. *)
Definition bad_age_directory : string -> option file :=
  fun p =>
    if String.eqb p "arrivingAnimals.txt" then Some (Sample.readable bad_age_txt)
    else if String.eqb p "newAnimals.txt"
         then Some (Sample.readable ("kept" ++ endl))
         else None.

(** The exception a computation ends with, if it does not return. *)
Definition thrown {A : Type} (o : outcome A) : option exn :=
  match o with
  | Returns _ _ => None
  | Uncaught e _ => Some e
  end.

(* ================================================================== *)
(** * The definitions at work *)
(* ================================================================== *)

Example trim_keeps_inner_blanks :
  trim (String tab "  a b " ++ String tab "") = "a b".
Proof. reflexivity. Qed.

Example trim_of_blanks : trim "   " = "".
Proof. reflexivity. Qed.

(** A final delimiter does not open a last, empty item; delimiters in a
    row do give empty items. *)
Example getlines_final_comma :
  getlines comma "a,b,c,d,e," = ["a"; "b"; "c"; "d"; "e"].
Proof. reflexivity. Qed.

Example getlines_commas_only : getlines comma ",," = [""; ""].
Proof. reflexivity. Qed.

Example getlines_last_line_open :
  getlines newline ("one" ++ endl ++ "two") = ["one"; "two"].
Proof. reflexivity. Qed.

Example extract_word_age : extract_word "4 Hyena" = ("4", " Hyena").
Proof. reflexivity. Qed.

Example stoi_stops_at_letters : stoi "-12kg" = inr (-12)%Z.
Proof. reflexivity. Qed.

Example stoi_nothing_to_convert : stoi "" = inl invalid_argument.
Proof. reflexivity. Qed.

Example stoi_too_large : stoi "2147483648" = inl out_of_range.
Proof. reflexivity. Qed.

Example put_int_negative : put_int (-45) = "-45".
Proof. reflexivity. Qed.

Example header_is_case_sensitive :
  is_header "Hyena Names:" = true /\ is_header "Hyena names:" = true /\
  is_header "Hyena NAMES:" = false.
Proof. repeat split; reflexivity. Qed.

(** Capital letters sort before small ones. *)
Example catalog_in_key_order :
  map_assign "Lion" [] (map_assign "hyena" [] (map_assign "Hyena" [] []))
  = [("Hyena", []); ("Lion", []); ("hyena", [])].
Proof. reflexivity. Qed.

Example names_file_loaded :
  fst (names_after (getlines newline Sample.names_txt)) = zoo_catalog.
Proof. reflexivity. Qed.

(** A later section for the same species starts its list afresh. *)
Example second_section_replaces_first :
  fst (names_after ["Lion Names:"; "Leo"; "Lion Names:"; "Nala"])
  = [("Lion", ["Nala"])].
Proof. reflexivity. Qed.

(** The end-to-end scenario on the sample platform, started at second
    1000 of the clock. *)
Example sample_run :
  match @main Sample.platform
          (Sample.start
             (Sample.directory Sample.names_txt Sample.arrivals_txt None)
             1000) with
  | Returns status w' =>
      status = 0%Z /\
      option_map f_data (files w' "newAnimals.txt")
      = Some ("Spot, Hyena, 4, born in spring, brown, 45.5, savanna east"
              ++ endl)%string /\
      cerr w' = ""
  | Uncaught _ _ => False
  end.
Proof. vm_compute. repeat split; reflexivity. Qed.
(* ================================================================== *)
(** * Reading lines and fields *)
(* ================================================================== *)

Section Reading.

Variable delim : ascii.

Lemma read_until_rest_length (s : string) :
  String.length (snd (read_until delim s)) <= String.length s.
Proof.
  induction s as [|c s IH]; simpl; [lia|].
  destruct (Ascii.eqb c delim); simpl; [lia|].
  destruct (read_until delim s); simpl in *; lia.
Qed.

Lemma getline_consumes (s t r : string) :
  getline delim s = Some (t, r) -> String.length r < String.length s.
Proof.
  destruct s as [|c s]; simpl; [discriminate|].
  pose proof (read_until_rest_length s) as Hlen.
  destruct (Ascii.eqb c delim).
  - intros H; inversion H; subst; lia.
  - destruct (read_until delim s) as [t' r']; simpl in *.
    intros H; inversion H; subst; lia.
Qed.

(** Fuel beyond the length of the unread part changes nothing. *)
Lemma getline_loop_fuel (n : nat) :
  forall m s, String.length s <= n -> String.length s <= m ->
              getline_loop n delim s = getline_loop m delim s.
Proof.
  induction n as [|n IH]; intros m s Hn Hm.
  - destruct s; simpl in *; [destruct m; reflexivity | lia].
  - destruct s as [|c s]; [destruct m; reflexivity|].
    destruct m as [|m]; [simpl in Hm; lia|].
    cbn [getline_loop].
    destruct (getline delim (String c s)) as [[t r]|] eqn:Hg; [|reflexivity].
    apply getline_consumes in Hg. simpl in Hg, Hn, Hm.
    rewrite (IH m r) by lia. reflexivity.
Qed.

(** The loop [while (getline(stream, x, delim))], one iteration at a
    time. *)
Lemma getlines_step (s : string) :
  getlines delim s =
  match getline delim s with
  | None => []
  | Some (t, r) => t :: getlines delim r
  end.
Proof.
  unfold getlines. destruct s as [|c s]; [reflexivity|].
  change (String.length (String c s)) with (S (String.length s)).
  cbn [getline_loop].
  destruct (getline delim (String c s)) as [[t r]|] eqn:Hg; [|reflexivity].
  apply getline_consumes in Hg. simpl in Hg.
  rewrite (getline_loop_fuel _ (String.length r)) by lia. reflexivity.
Qed.

Lemma getlines_empty : getlines delim "" = [].
Proof. reflexivity. Qed.

Lemma read_until_terminated (a b : string) :
  mem_char delim a = false ->
  read_until delim (a ++ String delim b) = (a, b).
Proof.
  induction a as [|c a IH]; simpl.
  - rewrite Ascii.eqb_refl. reflexivity.
  - rewrite (Ascii.eqb_sym delim c).
    destruct (Ascii.eqb c delim); simpl; [discriminate|].
    intros H. rewrite (IH H). reflexivity.
Qed.

(** A piece of text without the delimiter, followed by the delimiter, is
    read as one item. *)
Lemma getlines_terminated (a b : string) :
  mem_char delim a = false ->
  getlines delim (a ++ String delim b) = a :: getlines delim b.
Proof.
  intros H. rewrite getlines_step.
  assert (Hg : getline delim (a ++ String delim b) = Some (a, b)).
  { unfold getline. rewrite <- (read_until_terminated a b H).
    destruct a; reflexivity. }
  rewrite Hg. reflexivity.
Qed.

Lemma read_until_clean (s : string) :
  mem_char delim (fst (read_until delim s)) = false.
Proof.
  induction s as [|c s IH]; simpl; [reflexivity|].
  destruct (Ascii.eqb c delim) eqn:E; simpl; [reflexivity|].
  destruct (read_until delim s) as [t r]; simpl in *.
  rewrite Ascii.eqb_sym, E. exact IH.
Qed.

Lemma getline_loop_clean (n : nat) :
  forall s, Forall (fun t => mem_char delim t = false) (getline_loop n delim s).
Proof.
  induction n as [|n IH]; intros s; simpl; [constructor|].
  destruct s as [|c s]; simpl; [constructor|].
  pose proof (read_until_clean (String c s)) as Hc. simpl in Hc.
  destruct (Ascii.eqb c delim).
  - constructor; [reflexivity | apply IH].
  - destruct (read_until delim s) as [t r]. constructor; [exact Hc | apply IH].
Qed.

(** No item read by the loop contains the delimiter. *)
Lemma getlines_clean (s : string) :
  Forall (fun t => mem_char delim t = false) (getlines delim s).
Proof. apply getline_loop_clean. Qed.

End Reading.

(* ================================================================== *)
(** * The name assigner *)
(* ================================================================== *)

Section Assigner.

Context `{Platform}.

Lemma drawn_In (r : N) (candidates : list string) :
  candidates <> [] -> In (drawn r candidates) candidates.
Proof.
  intros Hne. unfold drawn. apply nth_In.
  assert (Hlen : List.length candidates <> 0%nat)
    by (destruct candidates; [congruence | discriminate]).
  pose proof (N.mod_upper_bound r (N.of_nat (List.length candidates))) as Hb.
  lia.
Qed.

(** What [assignName] does once the iterator is known. *)
Lemma assignName_found (species key : string) (candidates : list string)
  (m : catalog) (w : world) :
  lookup_species species m = Some (key, candidates) ->
  candidates <> [] ->
  assignName species m w =
  Returns (drawn (rand_seq (rand_seed w) (rand_calls w)) candidates)
          (with_rand (rand_seed w) (S (rand_calls w)) w).
Proof.
  intros Hit Hne. unfold assignName. rewrite Hit.
  destruct candidates as [|c cs]; [congruence|]. reflexivity.
Qed.

Lemma assignName_no_candidates (species key : string) (m : catalog)
  (w : world) :
  lookup_species species m = Some (key, []) ->
  assignName species m w = Returns "Unnamed" w.
Proof. intros Hit. unfold assignName. rewrite Hit. reflexivity. Qed.

Lemma assignName_no_entry (species : string) (m : catalog) (w : world) :
  lookup_species species m = None ->
  assignName species m w = Returns "Unnamed" w.
Proof. intros Hit. unfold assignName. rewrite Hit. reflexivity. Qed.

(** An exact match settles the iterator; the scan does not run. *)
Lemma lookup_species_exact (species : string) (m : catalog)
  (entry : string * list string) :
  map_find species m = Some entry -> lookup_species species m = Some entry.
Proof. intros Hf. unfold lookup_species. rewrite Hf. reflexivity. Qed.

Lemma map_find_skip (k : string) (prefix rest : catalog) :
  Forall (fun e => fst e <> k) prefix ->
  map_find k (prefix ++ rest) = map_find k rest.
Proof.
  induction 1 as [|[k' v] prefix Hk _ IH]; [reflexivity|].
  simpl in *. destruct (String.eqb_spec k' k); [contradiction | exact IH].
Qed.

(** The scan, started after a prefix without a match, stops at the first
    entry (in iteration order) that matches when case is ignored, and the
    second [find] of line 144 lands on that very entry. *)
Lemma scan_first_match (species : string) (rest : catalog) :
  forall prefix,
    Forall (fun e => same_ignoring_case species e = false) prefix ->
    scan_ignoring_case species (prefix ++ rest) rest =
    find (same_ignoring_case species) rest.
Proof.
  induction rest as [|[k v] rest IH]; intros prefix Hp; [reflexivity|].
  cbn [scan_ignoring_case find].
  change (same_ignoring_case species (k, v))
    with (String.eqb (transform tolower k) (transform tolower species)).
  destruct (String.eqb (transform tolower k) (transform tolower species)) eqn:E.
  - rewrite map_find_skip.
    + simpl. rewrite String.eqb_refl. reflexivity.
    + eapply Forall_impl; [|exact Hp]. intros [k' v'] Hk' Heq.
      unfold same_ignoring_case in Hk'. simpl in *. subst k'. congruence.
  - replace (prefix ++ (k, v) :: rest) with ((prefix ++ [(k, v)]) ++ rest)
      by (rewrite <- app_assoc; reflexivity).
    apply IH. apply Forall_app. split; [exact Hp|].
    constructor; [exact E | constructor].
Qed.

Lemma lookup_species_fallback (species : string) (m : catalog) :
  map_find species m = None ->
  lookup_species species m = find (same_ignoring_case species) m.
Proof.
  intros Hf. unfold lookup_species. rewrite Hf.
  apply (scan_first_match species m []). constructor.
Qed.

End Assigner.

(* ================================================================== *)
(** * Text *)
(* ================================================================== *)

Lemma append_assoc (a b c : string) :
  ((a ++ b) ++ c = a ++ (b ++ c))%string.
Proof. induction a as [|x a IH]; simpl; [reflexivity | rewrite IH; reflexivity]. Qed.

Lemma append_empty_r (a : string) : (a ++ "")%string = a.
Proof. induction a as [|x a IH]; simpl; [reflexivity | rewrite IH; reflexivity]. Qed.

Lemma join_all_app (l1 l2 : list string) :
  join_all (l1 ++ l2) = (join_all l1 ++ join_all l2)%string.
Proof.
  induction l1 as [|x l1 IH]; simpl; [reflexivity|].
  rewrite IH, append_assoc. reflexivity.
Qed.

Lemma logged_nothing (w : world) : logged "" w w.
Proof.
  unfold logged. rewrite append_empty_r. repeat split; reflexivity.
Qed.

Lemma logged_trans (s t : string) (w1 w2 w3 : world) :
  logged s w1 w2 -> logged t w2 w3 -> logged (s ++ t)%string w1 w3.
Proof.
  unfold logged.
  intros (F1 & C1 & K1 & S1 & R1 & O1 & E1) (F2 & C2 & K2 & S2 & R2 & O2 & E2).
  rewrite F2, C2, K2, S2, R2, O2, E2, E1, append_assoc.
  repeat split; assumption.
Qed.

Lemma logged_cerr_put (s : string) (w : world) :
  logged s w (with_cerr (cerr w ++ s) w).
Proof. unfold logged. repeat split; reflexivity. Qed.

(* ================================================================== *)
(** * The catalogue loader *)
(* ================================================================== *)

Lemma compare_same (k : string) : String.compare k k = Eq.
Proof.
  pose proof (String.compare_antisym k k) as Ha.
  destruct (String.compare k k); [reflexivity | discriminate | discriminate].
Qed.

Lemma map_find_assign (k : string) (v : list string) (m : catalog) :
  map_find k (map_assign k v m) = Some (k, v).
Proof.
  induction m as [|[k' v'] m IH]; simpl.
  - rewrite String.eqb_refl. reflexivity.
  - destruct (String.compare k k') eqn:E; simpl.
    + rewrite String.eqb_refl. reflexivity.
    + rewrite String.eqb_refl. reflexivity.
    + destruct (String.eqb_spec k' k) as [->|_]; [|exact IH].
      rewrite compare_same in E. discriminate.
Qed.

(** With no current species every name of a data line is dropped. *)
Lemma add_name_without_species (parts : list string) (m : catalog) :
  fold_left (add_name "") parts m = m.
Proof.
  induction parts as [|p parts IH]; simpl; [reflexivity|].
  unfold add_name at 2. simpl. rewrite andb_false_r. exact IH.
Qed.

Lemma names_line_data_without_species (m : catalog) (line : string) :
  not_header line -> names_line (m, "") line = (m, "").
Proof.
  unfold not_header, names_line. intros Hh.
  destruct (empty (trim line)); [reflexivity|].
  rewrite Hh, add_name_without_species. reflexivity.
Qed.

Lemma names_lines_data_without_species (lines : list string) (m : catalog) :
  Forall not_header lines -> fold_left names_line lines (m, "") = (m, "").
Proof.
  induction 1 as [|l lines Hl _ IH]; cbn [fold_left]; [reflexivity|].
  rewrite names_line_data_without_species by exact Hl. exact IH.
Qed.

Lemma names_line_bare_header (st : catalog * string) (line : string) :
  trim line = "Names:" \/ trim line = "names:" ->
  names_line st line = (map_assign "" [] (fst st), "").
Proof.
  destruct st as [m cur]. unfold names_line.
  intros [-> | ->]; reflexivity.
Qed.

Lemma loadAnimalNames_readable (filename text : string) (w : world) :
  ifstream filename w = Returns (Some text) w ->
  loadAnimalNames filename w
  = Returns (fst (names_after (getlines newline text))) w.
Proof.
  intros Hopen. unfold loadAnimalNames, bind. rewrite Hopen. reflexivity.
Qed.

(* ================================================================== *)
(** * The arrival loader *)
(* ================================================================== *)

Section Arrivals.

Context `{Platform}.

Lemma six_fields_not_too_short (line : string) :
  six_fields line = negb (empty (trim line)) && negb (too_short line).
Proof.
  unfold six_fields, too_short. rewrite (Nat.leb_antisym _ 6).
  destruct (empty (trim line)); reflexivity.
Qed.

(** The three ways the body of the loop can go. *)
Lemma arrival_line_blank (animals : list Animal) (line : string) (w : world) :
  empty (trim line) = true -> arrival_line animals line w = Returns animals w.
Proof. intros Hb. unfold arrival_line. rewrite Hb. reflexivity. Qed.

Lemma arrival_line_too_short (animals : list Animal) (line : string)
  (w : world) :
  too_short line = true ->
  arrival_line animals line w
  = Returns animals (with_cerr (cerr w ++ diagnostic line) w).
Proof.
  unfold too_short, arrival_line, fields. intros Hs.
  apply andb_prop in Hs. destruct Hs as [Hb Hn].
  apply negb_true_iff in Hb. rewrite Hb, Hn. reflexivity.
Qed.

Lemma arrival_line_six_fields (animals : list Animal) (line : string)
  (w : world) :
  six_fields line = true ->
  arrival_line animals line w =
  match make_animal (fields line) with
  | inl e => Uncaught e w
  | inr animal => Returns (animals ++ [animal]) w
  end.
Proof.
  unfold six_fields, arrival_line, fields. intros Hs.
  apply andb_prop in Hs. destruct Hs as [Hb Hn].
  apply negb_true_iff in Hb. rewrite (Nat.leb_antisym _ 6) in Hn.
  apply negb_true_iff in Hn. rewrite Hb, Hn.
  destruct (make_animal _); reflexivity.
Qed.

Lemma line_kinds (line : string) :
  (empty (trim line) = true /\ too_short line = false /\ six_fields line = false) \/
  (empty (trim line) = false /\ too_short line = true /\ six_fields line = false) \/
  (empty (trim line) = false /\ too_short line = false /\ six_fields line = true).
Proof.
  rewrite six_fields_not_too_short. unfold too_short.
  destruct (empty (trim line)); simpl; [tauto|].
  destruct (List.length (fields line) <? 6)%nat; simpl; tauto.
Qed.

(** The loop over the lines, from any list of records and any world:
    when it returns, one record was added for every line with six
    fields and one diagnostic for every shorter one, both in the order
    of the lines; when it throws, a line with six fields could not be
    converted. *)
Lemma arrival_lines_outcome (lines : list string) :
  forall (animals : list Animal) (w : world),
    match fold_io arrival_line lines animals w with
    | Returns animals' w' =>
        exists added,
          animals' = animals ++ added /\
          Forall2 record_of (filter six_fields lines) added /\
          logged (join_all (map diagnostic (filter too_short lines))) w w'
    | Uncaught e _ =>
        exists line,
          In line (filter six_fields lines) /\
          make_animal (fields line) = inl e
    end.
Proof.
  induction lines as [|l lines IH]; intros animals w.
  - simpl. exists []. rewrite app_nil_r.
    split; [reflexivity|]. split; [constructor | apply logged_nothing].
  - cbn [fold_io filter]. unfold bind.
    destruct (line_kinds l) as [(Hb & Hs & H6) | [(Hb & Hs & H6) | (Hb & Hs & H6)]];
      rewrite Hs, H6.
    + rewrite arrival_line_blank by exact Hb. apply IH.
    + rewrite arrival_line_too_short by exact Hs.
      specialize (IH animals (with_cerr (cerr w ++ diagnostic l) w)).
      destruct (fold_io arrival_line lines animals _) as [animals' w'|e w'].
      * destruct IH as (added & Ha & Hr & Hl). exists added.
        split; [exact Ha|]. split; [exact Hr|].
        cbn [map join_all fold_right].
        eapply logged_trans; [apply logged_cerr_put | exact Hl].
      * exact IH.
    + rewrite arrival_line_six_fields by exact H6.
      destruct (make_animal (fields l)) as [e|a] eqn:Hm.
      * exists l. split; [left; reflexivity | exact Hm].
      * specialize (IH (animals ++ [a]) w).
        destruct (fold_io arrival_line lines (animals ++ [a]) w)
          as [animals' w'|e w'].
        -- destruct IH as (added & Ha & Hr & Hl). exists (a :: added).
           split; [rewrite Ha, <- app_assoc; reflexivity|].
           split; [constructor; [exact Hm | exact Hr] | exact Hl].
        -- destruct IH as (line & Hin & Hbad). exists line.
           split; [right; exact Hin | exact Hbad].
Qed.

Lemma parseable_record (line : string) :
  parseable line <-> exists animal, record_of line animal.
Proof.
  unfold parseable, record_of, make_animal.
  destruct (extract_word (part 0 (fields line))) as [ageStr unread]. simpl.
  destruct (stoi ageStr) as [e|n].
  - split; [intros (n & d & Hn & _); discriminate | intros (a & Ha); discriminate].
  - destruct (stod (part 3 (fields line))) as [e|d].
    + split; [intros (n' & d & _ & Hd); discriminate | intros (a & Ha); discriminate].
    + split; [intros _; eexists; reflexivity | intros _; exists n, d; split; reflexivity].
Qed.

Lemma loadArrivingAnimals_readable (filename text : string) (w : world) :
  ifstream filename w = Returns (Some text) w ->
  loadArrivingAnimals filename w
  = fold_io arrival_line (getlines newline text) [] w.
Proof.
  intros Hopen. unfold loadArrivingAnimals, bind. rewrite Hopen. reflexivity.
Qed.

Lemma loadArrivingAnimals_unreadable (filename : string) (w : world) :
  ifstream filename w = Returns None w ->
  loadArrivingAnimals filename w
  = Returns [] (with_cerr (cerr w ++ ("Error opening file: " ++ filename ++ endl)) w).
Proof.
  intros Hopen. unfold loadArrivingAnimals, bind. rewrite Hopen. reflexivity.
Qed.

(** The loader returns exactly when every line with six fields can be
    converted. *)
Lemma arrival_lines_return (lines : list string) (w : world) :
  (exists animals w', fold_io arrival_line lines [] w = Returns animals w') <->
  Forall parseable (filter six_fields lines).
Proof.
  pose proof (arrival_lines_outcome lines [] w) as Hout. split.
  - intros (animals & w' & Hrun). rewrite Hrun in Hout.
    destruct Hout as (added & _ & Hrec & _).
    clear Hrun. induction Hrec as [|l a ls added Hla _ IH]; constructor.
    + apply parseable_record. exists a. exact Hla.
    + exact IH.
  - intros Hall.
    destruct (fold_io arrival_line lines [] w) as [animals w'|e w'].
    + exists animals, w'. reflexivity.
    + destruct Hout as (line & Hin & Hbad).
      rewrite Forall_forall in Hall. apply Hall in Hin.
      apply parseable_record in Hin. destruct Hin as (a & Ha).
      unfold record_of in Ha. congruence.
Qed.

End Arrivals.

(* ================================================================== *)
(** * Files *)
(* ================================================================== *)

Lemma ifstream_readable_text (path : string) (w : world) :
  ifstream path w = Returns (readable_text w path) w.
Proof.
  unfold ifstream, readable_text. destruct (files w path); reflexivity.
Qed.

Lemma loadAnimalNames_outcome (filename : string) (w : world) :
  exists w',
    loadAnimalNames filename w
    = Returns (fst (names_after (lines_of (readable_text w filename)))) w' /\
    files w' = files w /\ can_create w' = can_create w /\
    rand_seed w' = rand_seed w /\ rand_calls w' = rand_calls w.
Proof.
  unfold loadAnimalNames, bind. rewrite ifstream_readable_text.
  destruct (readable_text w filename) as [text|]; simpl.
  - exists w. repeat split; reflexivity.
  - eexists. split; [reflexivity|]. repeat split; reflexivity.
Qed.

(* ================================================================== *)
(** * The naming loop *)
(* ================================================================== *)

Section Naming.

Context `{Platform}.

Lemma map_find_In (k : string) (m : catalog) (entry : string * list string) :
  map_find k m = Some entry -> In entry m.
Proof.
  induction m as [|[k' v] m IH]; simpl; [discriminate|].
  destruct (String.eqb k' k).
  - intros Heq; inversion Heq; left; reflexivity.
  - intros Hf; right; exact (IH Hf).
Qed.

Lemma scan_In (species_ : string) (all rest : catalog)
  (entry : string * list string) :
  scan_ignoring_case species_ all rest = Some entry -> In entry all.
Proof.
  induction rest as [|[k v] rest IH]; simpl; [discriminate|].
  destruct (String.eqb _ _); [apply map_find_In | exact IH].
Qed.

Lemma lookup_species_In (species_ : string) (m : catalog)
  (entry : string * list string) :
  lookup_species species_ m = Some entry -> In entry m.
Proof.
  unfold lookup_species.
  destruct (map_find species_ m) as [e|] eqn:Hf.
  - intros Heq; inversion Heq; subst. exact (map_find_In _ _ _ Hf).
  - apply scan_In.
Qed.

Lemma names_for_candidate (m : catalog) (species_ n : string) :
  names_for m species_ n -> n = "Unnamed" \/ candidate m n.
Proof.
  unfold names_for.
  destruct (lookup_species species_ m) as [[k [|c cs]]|] eqn:Hit; auto.
  intros Hin. right. exists k, (c :: cs).
  split; [exact (lookup_species_In _ _ _ Hit) | exact Hin].
Qed.

(** [assignName] always returns, with a name allowed for the species,
    and touches nothing but the count of random draws. *)
Lemma assignName_outcome (species_ : string) (m : catalog) (w : world) :
  exists n w',
    assignName species_ m w = Returns n w' /\ names_for m species_ n /\
    files w' = files w /\ can_create w' = can_create w /\
    cerr w' = cerr w /\ cout w' = cout w.
Proof.
  unfold names_for.
  destruct (lookup_species species_ m) as [[k [|c cs]]|] eqn:Hit.
  - exists "Unnamed", w.
    rewrite (assignName_no_candidates _ _ _ _ Hit). repeat split; reflexivity.
  - assert (Hne : c :: cs <> []) by discriminate.
    rewrite (assignName_found _ _ _ _ w Hit Hne).
    eexists; eexists. split; [reflexivity|].
    split; [apply drawn_In; exact Hne|]. repeat split; reflexivity.
  - exists "Unnamed", w.
    rewrite (assignName_no_entry _ _ _ Hit). repeat split; reflexivity.
Qed.

Lemma name_all_outcome (m : catalog) (animals : list Animal) :
  forall w,
    exists animals' w',
      name_all m animals w = Returns animals' w' /\
      Forall2 (named m) animals animals' /\
      files w' = files w /\ can_create w' = can_create w /\
      cerr w' = cerr w /\ cout w' = cout w.
Proof.
  unfold name_all.
  induction animals as [|a animals IH]; intros w.
  - exists [], w. split; [reflexivity|]. split; [constructor|].
    repeat split; reflexivity.
  - cbn [for_each_ref]. unfold bind at 1 2.
    destruct (assignName_outcome (species a) m w)
      as (n & w1 & Hrun & Hn & Hf1 & Hc1 & He1 & Ho1).
    rewrite Hrun. unfold ret at 1. unfold bind at 1.
    destruct (IH w1) as (animals' & w2 & Hrest & Hnamed & Hf2 & Hc2 & He2 & Ho2).
    rewrite Hrest. exists (set_name a n :: animals'), w2.
    split; [reflexivity|].
    split; [constructor; [exists n; split; [reflexivity | exact Hn] | exact Hnamed]|].
    rewrite Hf2, Hc2, He2, Ho2. repeat split; assumption.
Qed.

End Naming.

(* ================================================================== *)
(** * The pipeline up to the report writer *)
(* ================================================================== *)

Section Pipeline.

Context `{Platform}.

Lemma loadArrivingAnimals_outcome (filename : string) (w : world) :
  match loadArrivingAnimals filename w with
  | Returns animals w' =>
      files w' = files w /\ can_create w' = can_create w /\
      Forall2 record_of
        (filter six_fields (lines_of (readable_text w filename))) animals
  | Uncaught e _ =>
      exists line,
        In line (filter six_fields (lines_of (readable_text w filename))) /\
        make_animal (fields line) = inl e
  end.
Proof.
  unfold loadArrivingAnimals, bind. rewrite ifstream_readable_text.
  destruct (readable_text w filename) as [text|]; cbn [lines_of].
  - pose proof (arrival_lines_outcome (getlines newline text) [] w) as Hout.
    destruct (fold_io arrival_line (getlines newline text) [] w)
      as [animals w'|e w'].
    + destruct Hout as (added & -> & Hrec & Hlog).
      destruct Hlog as (Hf & Hc & _).
      split; [exact Hf|]. split; [exact Hc | exact Hrec].
    + exact Hout.
  - simpl. repeat split; constructor.
Qed.

(** Lines 182 to 193 as a whole. *)
Lemma named_arrivals_outcome (w : world) :
  match named_arrivals w with
  | Returns animals' w' =>
      files w' = files w /\ can_create w' = can_create w /\
      exists animals,
        Forall2 record_of
          (filter six_fields
             (lines_of (readable_text w "arrivingAnimals.txt"))) animals /\
        Forall2
          (named (fst (names_after
                         (lines_of (readable_text w "animalNames.txt")))))
          animals animals'
  | Uncaught e _ =>
      exists line,
        In line (filter six_fields
                   (lines_of (readable_text w "arrivingAnimals.txt"))) /\
        make_animal (fields line) = inl e
  end.
Proof.
  unfold named_arrivals, time, srand. unfold bind at 1 2 3.
  set (w0 := with_rand (to_unsigned (clock w)) 0 w).
  destruct (loadAnimalNames_outcome "animalNames.txt" w0)
    as (w1 & Hnames & Hf1 & Hc1 & _).
  rewrite Hnames. unfold bind at 1.
  pose proof (loadArrivingAnimals_outcome "arrivingAnimals.txt" w1) as Harr.
  assert (Hr1 : forall p, readable_text w1 p = readable_text w p)
    by (intros p; unfold readable_text; rewrite Hf1; reflexivity).
  rewrite Hr1 in Harr.
  destruct (loadArrivingAnimals "arrivingAnimals.txt" w1) as [animals w2|e w2].
  - destruct Harr as (Hf2 & Hc2 & Hrec).
    destruct (name_all_outcome
                (fst (names_after (lines_of (readable_text w0 "animalNames.txt"))))
                animals w2)
      as (animals' & w3 & Hrun & Hnamed & Hf3 & Hc3 & _).
    unfold name_all in Hrun. rewrite Hrun.
    split; [rewrite Hf3, Hf2, Hf1; reflexivity|].
    split; [rewrite Hc3, Hc2, Hc1; reflexivity|].
    exists animals. split; [exact Hrec | exact Hnamed].
  - exact Harr.
Qed.

(** ** The report writer *)

Lemma set_file_same (path : string) (f : file) (fs : string -> option file) :
  set_file path f fs path = Some f.
Proof. unfold set_file. rewrite String.eqb_refl. reflexivity. Qed.

Lemma set_file_other (path p : string) (f : file) (fs : string -> option file) :
  p <> path -> set_file path f fs p = fs p.
Proof.
  intros Hne. unfold set_file.
  destruct (String.eqb_spec p path); [contradiction | reflexivity].
Qed.

(** The writing loop on an open file: the text of the records is added
    after what the file holds, and nothing else changes. *)
Lemma file_put_each (path : string) (animals : list Animal) :
  forall (w : world) (f : file),
    files w path = Some f ->
    exists w',
      for_each (fun animal => file_put path (record_line animal)) animals w
      = Returns tt w' /\
      files w' path
      = Some (with_data f (f_data f ++ join_all (map record_line animals))) /\
      (forall p, p <> path -> files w' p = files w p) /\
      can_create w' = can_create w /\ cerr w' = cerr w /\ cout w' = cout w.
Proof.
  induction animals as [|a animals IH]; intros w f Hf.
  - exists w. split; [reflexivity|]. simpl. rewrite append_empty_r.
    split; [destruct f; exact Hf|]. repeat split; reflexivity.
  - cbn [for_each]. unfold bind at 1. unfold file_put at 1. rewrite Hf.
    set (f1 := {| f_data := f_data f ++ record_line a;
                  f_read := f_read f; f_write := f_write f |}).
    set (w1 := with_files (set_file path f1 (files w)) w).
    destruct (IH w1 f1 (set_file_same path f1 (files w)))
      as (w' & Hrun & Hdata & Hothers & Hc & He & Ho).
    exists w'. split; [exact Hrun|]. split.
    + rewrite Hdata. unfold with_data, f1.
      cbn [f_data f_read f_write map join_all fold_right].
      rewrite append_assoc. reflexivity.
    + split; [|split; [exact Hc | split; [exact He | exact Ho]]].
      intros p Hp. rewrite (Hothers p Hp). apply set_file_other. exact Hp.
Qed.

Lemma updateZooPopulation_opened (filename : string) (animals : list Animal)
  (w : world) (f : file) :
  append_target w filename = Some f ->
  exists w',
    updateZooPopulation filename animals w = Returns tt w' /\
    files w' filename
    = Some (with_data f (f_data f ++ join_all (map record_line animals))) /\
    (forall p, p <> filename -> files w' p = files w p) /\
    can_create w' = can_create w /\ cerr w' = cerr w /\ cout w' = cout w.
Proof.
  unfold append_target, updateZooPopulation, ofstream_app. unfold bind at 1.
  destruct (files w filename) as [g|] eqn:Hg.
  - destruct (f_write g) eqn:Hw; [|discriminate].
    intros Heq; inversion Heq; subst g. cbn [negb].
    exact (file_put_each filename animals w f Hg).
  - destruct (can_create w) eqn:Hc; [|discriminate].
    intros Heq; inversion Heq; subst f. cbn [negb].
    set (f0 := {| f_data := ""; f_read := true; f_write := true |}).
    set (w0 := with_files (set_file filename f0 (files w)) w).
    destruct (file_put_each filename animals w0 f0 (set_file_same _ _ _))
      as (w' & Hrun & Hdata & Hothers & Hc' & He & Ho).
    exists w'. split; [exact Hrun|]. split; [exact Hdata|].
    split; [|split; [rewrite Hc'; exact Hc | split; [exact He | exact Ho]]].
    intros p Hp. rewrite (Hothers p Hp). apply set_file_other. exact Hp.
Qed.

Lemma updateZooPopulation_not_opened (filename : string)
  (animals : list Animal) (w : world) :
  append_target w filename = None ->
  updateZooPopulation filename animals w
  = Returns tt
      (with_cerr
         (cerr w ++ ("Error opening file for writing: " ++ filename ++ endl))
         w).
Proof.
  unfold append_target, updateZooPopulation, ofstream_app. unfold bind at 1.
  destruct (files w filename) as [g|].
  - destruct (f_write g); [discriminate | reflexivity].
  - destruct (can_create w); [discriminate | reflexivity].
Qed.

(** ** The display and the exit status *)

Lemma cout_put_each (lines : list string) :
  forall w,
    exists w',
      for_each (fun line => cout_put (line ++ endl)) lines w = Returns tt w' /\
      files w' = files w.
Proof.
  induction lines as [|l lines IH]; intros w.
  - exists w. split; reflexivity.
  - cbn [for_each]. unfold bind at 1. unfold cout_put at 1.
    destruct (IH (with_cout (cout w ++ (l ++ endl)) w)) as (w' & Hrun & Hf).
    exists w'. split; [exact Hrun | exact Hf].
Qed.

Lemma show_population_outcome (w : world) :
  exists w',
    show_population w
    = Returns (match readable_text w "newAnimals.txt" with
               | Some _ => 0%Z
               | None => 1%Z
               end) w' /\
    files w' = files w.
Proof.
  unfold show_population. unfold bind at 1. rewrite ifstream_readable_text.
  destruct (readable_text w "newAnimals.txt") as [text|].
  - unfold bind at 1. unfold cout_put at 1. unfold bind at 1.
    destruct (cout_put_each (getlines newline text)
                (with_cout (cout w ++ (endl ++ "Updated Zoo Population:" ++ endl)) w))
      as (w' & Hrun & Hf).
    rewrite Hrun. exists w'. split; [reflexivity | exact Hf].
  - eexists. split; reflexivity.
Qed.

(** [main] once the naming loop and the writer have returned. *)
Lemma main_after_update (w : world) (animals : list Animal) (w1 w2 : world) :
  named_arrivals w = Returns animals w1 ->
  updateZooPopulation "newAnimals.txt" animals w1 = Returns tt w2 ->
  exists w',
    main w
    = Returns (match readable_text w2 "newAnimals.txt" with
               | Some _ => 0%Z
               | None => 1%Z
               end) w' /\
    files w' = files w2.
Proof.
  intros Hnamed Hupdate. unfold main. unfold bind at 1. rewrite Hnamed.
  unfold bind at 1. rewrite Hupdate. unfold bind at 1. unfold cout_put at 1.
  set (w3 := with_cout _ w2).
  destruct (show_population_outcome w3) as (w' & Hshow & Hf).
  exists w'. split; [exact Hshow | exact Hf].
Qed.

(** The writer always returns. *)
Lemma updateZooPopulation_returns (filename : string) (animals : list Animal)
  (w : world) :
  exists w', updateZooPopulation filename animals w = Returns tt w'.
Proof.
  destruct (append_target w filename) as [f|] eqn:Ht.
  - destruct (updateZooPopulation_opened filename animals w f Ht)
      as (w' & Hrun & _).
    exists w'. exact Hrun.
  - eexists. apply updateZooPopulation_not_opened. exact Ht.
Qed.

Lemma main_uncaught (w : world) (e : exn) (w1 : world) :
  named_arrivals w = Uncaught e w1 -> main w = Uncaught e w1.
Proof. intros Hnamed. unfold main. unfold bind at 1. rewrite Hnamed. reflexivity. Qed.

End Pipeline.

(* ================================================================== *)
(** * Invariants of the catalogue *)
(* ================================================================== *)

Section CatalogueInvariant.

Variable P : string -> Prop.

Lemma map_assign_all (k : string) (v : list string) (m : catalog) :
  all_candidates P m -> Forall P v -> all_candidates P (map_assign k v m).
Proof.
  unfold all_candidates. intros Hm Hv.
  induction Hm as [|[k' v'] m Hhead Htail IH]; simpl.
  - constructor; [exact Hv | constructor].
  - destruct (String.compare k k').
    + constructor; [exact Hv | exact Htail].
    + constructor; [exact Hv|]. constructor; [exact Hhead | exact Htail].
    + constructor; [exact Hhead | exact IH].
Qed.

Lemma map_push_back_all (k x : string) (m : catalog) :
  all_candidates P m -> P x -> all_candidates P (map_push_back k x m).
Proof.
  intros Hm Hx. unfold map_push_back.
  destruct (map_find k m) as [[k' v]|] eqn:Hf.
  - apply map_assign_all; [exact Hm|].
    apply map_find_In in Hf. unfold all_candidates in Hm.
    rewrite Forall_forall in Hm. specialize (Hm _ Hf). simpl in Hm.
    apply Forall_app. split; [exact Hm | constructor; [exact Hx | constructor]].
  - apply map_assign_all; [exact Hm | constructor; [exact Hx | constructor]].
Qed.

Lemma add_names_all (cur : string) (parts : list string) :
  forall m,
    all_candidates P m ->
    (forall p, In p parts -> empty (trim p) = false -> P (trim p)) ->
    all_candidates P (fold_left (add_name cur) parts m).
Proof.
  induction parts as [|p parts IH]; intros m Hm Hparts; [exact Hm|].
  cbn [fold_left]. apply IH.
  - unfold add_name. destruct (empty (trim p)) eqn:Hp; [exact Hm|].
    destruct (empty cur); [exact Hm|]. simpl.
    apply map_push_back_all; [exact Hm|].
    apply Hparts; [left; reflexivity | exact Hp].
  - intros q Hq. apply Hparts. right. exact Hq.
Qed.

Lemma names_line_all (st : catalog * string) (line : string) :
  all_candidates P (fst st) ->
  (forall p, In p (getlines comma (trim line)) ->
             empty (trim p) = false -> P (trim p)) ->
  all_candidates P (fst (names_line st line)).
Proof.
  destruct st as [m cur]. unfold names_line. cbn [fst]. intros Hm Hparts.
  destruct (empty (trim line)); [exact Hm|].
  destruct (is_header (trim line)); cbn [fst].
  - apply map_assign_all; [exact Hm | constructor].
  - apply add_names_all; assumption.
Qed.

Lemma names_lines_all (lines : list string) :
  forall st,
    all_candidates P (fst st) ->
    (forall line p, In line lines -> In p (getlines comma (trim line)) ->
                    empty (trim p) = false -> P (trim p)) ->
    all_candidates P (fst (fold_left names_line lines st)).
Proof.
  induction lines as [|l lines IH]; intros st Hst Hlines; [exact Hst|].
  cbn [fold_left]. apply IH.
  - apply names_line_all; [exact Hst|].
    intros p Hp. apply (Hlines l p); [left; reflexivity | exact Hp].
  - intros line p Hin. apply Hlines. right. exact Hin.
Qed.

End CatalogueInvariant.

(** ** The entries stay in key order *)

Lemma compare_Gt_Lt (k k' : string) :
  String.compare k k' = Gt -> String.compare k' k = Lt.
Proof.
  intros Hgt. rewrite String.compare_antisym, Hgt. reflexivity.
Qed.

Lemma map_assign_above (k0 k : string) (v : list string) (m : catalog) :
  keys_above k0 m -> String.compare k0 k = Lt ->
  keys_above k0 (map_assign k v m).
Proof.
  revert k0. induction m as [|[k' v'] m IH]; intros k0 Hm Hk; simpl.
  - split; [exact Hk | exact I].
  - destruct Hm as [Hk' Hm].
    destruct (String.compare k k') eqn:E; simpl.
    + apply String.compare_eq_iff in E. subst k'. split; assumption.
    + repeat split; assumption.
    + split; [exact Hk'|]. apply IH; [exact Hm | apply compare_Gt_Lt; exact E].
Qed.

Lemma map_assign_wf (k : string) (v : list string) (m : catalog) :
  map_wf m -> map_wf (map_assign k v m).
Proof.
  destruct m as [|[k' v'] m]; simpl; [auto|]. intros Hm.
  destruct (String.compare k k') eqn:E; simpl.
  - apply String.compare_eq_iff in E. subst k'. exact Hm.
  - split; assumption.
  - apply map_assign_above; [exact Hm | apply compare_Gt_Lt; exact E].
Qed.

Lemma map_push_back_wf (k x : string) (m : catalog) :
  map_wf m -> map_wf (map_push_back k x m).
Proof.
  intros Hm. unfold map_push_back.
  destruct (map_find k m) as [[k' v]|]; apply map_assign_wf; exact Hm.
Qed.

Lemma names_line_wf (st : catalog * string) (line : string) :
  map_wf (fst st) -> map_wf (fst (names_line st line)).
Proof.
  destruct st as [m cur]. unfold names_line. cbn [fst]. intros Hm.
  destruct (empty (trim line)); [exact Hm|].
  destruct (is_header (trim line)); cbn [fst]; [apply map_assign_wf; exact Hm|].
  revert m Hm.
  induction (getlines comma (trim line)) as [|p parts IH]; intros m Hm;
    [exact Hm|].
  cbn [fold_left]. apply IH. unfold add_name.
  destruct (negb (empty (trim p)) && negb (empty cur)); [|exact Hm].
  apply map_push_back_wf. exact Hm.
Qed.

(** Every catalogue the loader builds is a well-formed map. *)
Lemma names_after_wf (lines : list string) : map_wf (fst (names_after lines)).
Proof.
  unfold names_after.
  assert (Hgen : forall st, map_wf (fst st) ->
                            map_wf (fst (fold_left names_line lines st))).
  { induction lines as [|l lines IH]; intros st Hst; [exact Hst|].
    cbn [fold_left]. apply IH. apply names_line_wf. exact Hst. }
  apply Hgen. exact I.
Qed.


(* ================================================================== *)
(** * Characters that a piece of text does not contain *)
(* ================================================================== *)

Section Absent.

Variable c : ascii.

Lemma mem_char_append (a b : string) :
  mem_char c (a ++ b) = mem_char c a || mem_char c b.
Proof.
  induction a as [|x a IH]; simpl; [reflexivity|].
  rewrite IH, orb_assoc. reflexivity.
Qed.

Lemma absent_substring (s : string) :
  forall n m, mem_char c s = false -> mem_char c (substring n m s) = false.
Proof.
  induction s as [|x s IH]; intros n m Hs.
  - destruct n, m; reflexivity.
  - simpl in Hs. apply orb_false_iff in Hs. destruct Hs as [Hx Hs].
    destruct n as [|n]; [destruct m as [|m]|]; simpl.
    + reflexivity.
    + rewrite Hx. apply IH. exact Hs.
    + apply IH. exact Hs.
Qed.

Lemma absent_trim (s : string) :
  mem_char c s = false -> mem_char c (trim s) = false.
Proof.
  intros Hs. unfold trim.
  destruct (find_first_not_of blanks s); [|reflexivity].
  destruct (find_last_not_of blanks s); [|reflexivity].
  apply absent_substring. exact Hs.
Qed.

Lemma absent_read_until (delim : ascii) (s : string) :
  mem_char c s = false ->
  mem_char c (fst (read_until delim s)) = false /\
  mem_char c (snd (read_until delim s)) = false.
Proof.
  induction s as [|x s IH]; simpl; [auto|].
  intros Hs. apply orb_false_iff in Hs. destruct Hs as [Hx Hs].
  destruct (Ascii.eqb x delim); simpl; [auto|].
  destruct (read_until delim s) as [t r]. simpl in *.
  rewrite Hx. exact (IH Hs).
Qed.

Lemma absent_getline_loop (delim : ascii) (n : nat) :
  forall s, mem_char c s = false ->
            Forall (fun t => mem_char c t = false) (getline_loop n delim s).
Proof.
  induction n as [|n IH]; intros s Hs; simpl; [constructor|].
  destruct s as [|x s]; [constructor|].
  cbn [getline].
  pose proof (absent_read_until delim (String x s) Hs) as [Ht Hr].
  destruct (read_until delim (String x s)) as [t r].
  constructor; [exact Ht | apply IH; exact Hr].
Qed.

(** The items read from a text hold only characters of the text. *)
Lemma absent_getlines (delim : ascii) (s : string) :
  mem_char c s = false ->
  Forall (fun t => mem_char c t = false) (getlines delim s).
Proof. apply absent_getline_loop. Qed.

Lemma absent_skip_ws (s : string) :
  mem_char c s = false -> mem_char c (skip_ws s) = false.
Proof.
  induction s as [|x s IH]; simpl; [auto|].
  intros Hs. destruct (isspace x); [|exact Hs].
  apply orb_false_iff in Hs. apply IH. tauto.
Qed.

Lemma absent_take_word (s : string) :
  mem_char c s = false -> mem_char c (snd (take_word s)) = false.
Proof.
  induction s as [|x s IH]; simpl; [auto|].
  intros Hs. destruct (isspace x); [exact Hs|].
  apply orb_false_iff in Hs. destruct Hs as [_ Hs].
  destruct (take_word s) as [word r]. simpl in *. exact (IH Hs).
Qed.

Lemma absent_part (i : nat) (parts : list string) :
  Forall (fun t => mem_char c t = false) parts ->
  mem_char c (part i parts) = false.
Proof.
  intros Hparts. unfold part.
  destruct (nth_in_or_default i parts "") as [Hin | ->]; [|reflexivity].
  rewrite Forall_forall in Hparts. exact (Hparts _ Hin).
Qed.

Lemma absent_fields (line : string) :
  mem_char c line = false ->
  Forall (fun t => mem_char c t = false) (fields line).
Proof.
  intros Hl. unfold fields. apply Forall_map.
  eapply Forall_impl; [|apply absent_getlines; apply absent_trim; exact Hl].
  intros t Ht. apply absent_trim. exact Ht.
Qed.

End Absent.

Lemma put_uint_one_line (d : Decimal.uint) :
  one_line (NilEmpty.string_of_uint d).
Proof. unfold one_line. induction d; simpl; auto. Qed.

Lemma one_line_cons (x : ascii) (s : string) :
  Ascii.eqb newline x = false -> one_line s -> one_line (String x s).
Proof. unfold one_line. simpl. intros -> Hs. exact Hs. Qed.

Lemma put_int_one_line (n : Z) : one_line (put_int n).
Proof.
  assert (Hu : forall d, one_line (NilZero.string_of_uint d)).
  { intros d. destruct d; try apply put_uint_one_line. reflexivity. }
  unfold put_int, NilZero.string_of_int.
  destruct (Z.to_int n) as [d|d]; [apply Hu|].
  apply one_line_cons; [reflexivity | apply Hu].
Qed.

(* ================================================================== *)
(** * Counting the lines of the report *)
(* ================================================================== *)

Section Lines.

Variable delim : ascii.

(** The items of a text, one character at a time. *)
Lemma getlines_cons (x : ascii) (s : string) :
  getlines delim (String x s) =
  if Ascii.eqb x delim then "" :: getlines delim s
  else match getlines delim s with
       | [] => [String x ""]
       | t :: ts => String x t :: ts
       end.
Proof.
  rewrite getlines_step. cbn [getline read_until].
  destruct (Ascii.eqb x delim); [reflexivity|].
  rewrite (getlines_step delim s).
  destruct s as [|y s]; [reflexivity|].
  cbn [getline]. destruct (read_until delim (String y s)) as [t r].
  reflexivity.
Qed.

Lemma getlines_nonempty (x : ascii) (s : string) :
  getlines delim (String x s) <> [].
Proof.
  rewrite getlines_step. cbn [getline].
  destruct (read_until delim (String x s)). discriminate.
Qed.

(** After a complete text the items of what follows are simply added. *)
Lemma getlines_app_complete (s t : string) :
  complete delim s = true ->
  getlines delim (s ++ t) = getlines delim s ++ getlines delim t.
Proof.
  induction s as [|x s IH]; intros Hs; [reflexivity|].
  change (String x s ++ t)%string with (String x (s ++ t)).
  rewrite !getlines_cons.
  destruct s as [|y s].
  - simpl in Hs. rewrite Hs. reflexivity.
  - assert (Hs' : complete delim (String y s) = true) by exact Hs.
    rewrite (IH Hs').
    destruct (Ascii.eqb x delim); [reflexivity|].
    pose proof (getlines_nonempty y s) as Hne.
    destruct (getlines delim (String y s)); [congruence | reflexivity].
Qed.

Lemma complete_app (a b : string) :
  complete delim a = true -> complete delim b = true ->
  complete delim (a ++ b) = true.
Proof.
  intros Ha Hb. induction a as [|x a IH]; [exact Hb|].
  destruct a as [|y a].
  - destruct b as [|z b]; [exact Ha | exact Hb].
  - apply IH. exact Ha.
Qed.

Lemma complete_terminated (a : string) :
  complete delim (a ++ String delim "") = true.
Proof.
  induction a as [|x a IH]; simpl.
  - apply Ascii.eqb_refl.
  - destruct a; exact IH.
Qed.

Lemma complete_app_r (a b : string) :
  b <> "" -> complete delim b = true -> complete delim (a ++ b) = true.
Proof.
  intros Hne Hb. induction a as [|x a IH]; [exact Hb|].
  simpl. destruct (a ++ b)%string eqn:E; [|exact IH].
  destruct a; simpl in E; [congruence | discriminate].
Qed.

End Lines.

Section ReportLines.

Context `{Platform}.

Lemma record_line_text (animal : Animal) :
  record_line animal = (record_text animal ++ endl)%string.
Proof.
  unfold record_line, record_text. rewrite !append_assoc. reflexivity.
Qed.

Lemma record_lines_complete (animals : list Animal) :
  complete newline (join_all (map record_line animals)) = true.
Proof.
  induction animals as [|a animals IH]; [reflexivity|].
  cbn [map join_all fold_right]. apply complete_app; [|exact IH].
  rewrite record_line_text. apply complete_terminated.
Qed.

Lemma record_lines_nonempty (animals : list Animal) :
  animals <> [] -> join_all (map record_line animals) <> "".
Proof.
  destruct animals as [|a animals]; [congruence|]. intros _.
  cbn [map join_all fold_right]. rewrite record_line_text.
  destruct (record_text a); discriminate.
Qed.

(** Read back line by line, the text written for a list of records is
    the list of their texts. *)
Lemma getlines_record_lines (animals : list Animal) :
  Forall (fun animal => one_line (record_text animal)) animals ->
  getlines newline (join_all (map record_line animals))
  = map record_text animals.
Proof.
  induction 1 as [|a animals Ha _ IH]; [reflexivity|].
  change (join_all (map record_line (a :: animals)))
    with (record_line a ++ join_all (map record_line animals))%string.
  rewrite record_line_text, append_assoc.
  change (endl ++ join_all (map record_line animals))%string
    with (String newline (join_all (map record_line animals))).
  rewrite (getlines_terminated newline _ _ Ha), IH. reflexivity.
Qed.

Lemma line_count_appended (text : string) (animals : list Animal) :
  complete newline text = true ->
  Forall (fun animal => one_line (record_text animal)) animals ->
  line_count (text ++ join_all (map record_line animals))
  = line_count text + List.length animals.
Proof.
  intros Hc Hall. unfold line_count.
  rewrite (getlines_app_complete newline _ _ Hc), length_app.
  rewrite (getlines_record_lines animals Hall), length_map. reflexivity.
Qed.

End ReportLines.

(* ================================================================== *)
(** * Every record is written on one line *)
(* ================================================================== *)

Lemma lines_of_one_line (o : option string) : Forall one_line (lines_of o).
Proof.
  destruct o as [text|]; [apply getlines_clean | constructor].
Qed.

Lemma names_after_one_line (lines : list string) :
  Forall one_line lines -> all_candidates one_line (fst (names_after lines)).
Proof.
  intros Hlines. apply names_lines_all; [constructor|].
  intros line p Hline Hp _. rewrite Forall_forall in Hlines.
  apply absent_trim.
  pose proof (absent_getlines newline comma (trim line)
                (absent_trim newline line (Hlines line Hline))) as Hparts.
  rewrite Forall_forall in Hparts. exact (Hparts p Hp).
Qed.

Section OneLine.

Context `{Platform}.

Lemma names_for_one_line (m : catalog) (species_ n : string) :
  all_candidates one_line m -> names_for m species_ n -> one_line n.
Proof.
  intros Hm Hn. apply names_for_candidate in Hn.
  destruct Hn as [-> | (key & candidates & Hentry & Hin)]; [reflexivity|].
  unfold all_candidates in Hm. rewrite Forall_forall in Hm.
  specialize (Hm _ Hentry). cbn [snd] in Hm. rewrite Forall_forall in Hm.
  exact (Hm _ Hin).
Qed.

Lemma record_of_one_line (line : string) (animal : Animal) :
  one_line line -> record_of line animal ->
  one_line (species animal) /\ one_line (birthSeason animal) /\
  one_line (color animal) /\ one_line (origin animal).
Proof.
  unfold one_line, record_of, make_animal. intros Hline.
  pose proof (absent_fields newline line Hline) as Hparts.
  pose proof (absent_part newline 0 _ Hparts) as H0.
  unfold extract_word.
  pose proof (absent_take_word newline _
                (absent_skip_ws newline _ H0)) as Hunread.
  destruct (take_word (skip_ws (part 0 (fields line)))) as [ageStr unread].
  cbn [snd] in Hunread.
  destruct (stoi ageStr) as [e|n]; [discriminate|].
  destruct (stod (part 3 (fields line))) as [e|d]; [discriminate|].
  intros Heq. inversion Heq; subst animal; clear Heq. cbn [species birthSeason color origin].
  split; [|split; [|split]].
  - apply absent_trim. destruct unread as [|x unread]; [reflexivity|].
    cbn [getline].
    pose proof (absent_read_until newline newline (String x unread) Hunread)
      as [Hs _].
    destruct (read_until newline (String x unread)). exact Hs.
  - apply absent_part. exact Hparts.
  - apply absent_part. exact Hparts.
  - rewrite mem_char_append. cbn [mem_char].
    rewrite (absent_part newline 4 _ Hparts), (absent_part newline 5 _ Hparts).
    reflexivity.
Qed.

Lemma record_text_one_line (animal : Animal) :
  (forall d, one_line (put_double d)) ->
  one_line (name animal) -> one_line (species animal) ->
  one_line (birthSeason animal) -> one_line (color animal) ->
  one_line (origin animal) ->
  one_line (record_text animal).
Proof.
  unfold one_line, record_text. intros Hput Hn Hs Hb Hc Ho.
  rewrite !mem_char_append, Hn, Hs, Hb, Hc, Ho, Hput.
  pose proof (put_int_one_line (age animal)) as Ha. unfold one_line in Ha.
  rewrite Ha. reflexivity.
Qed.

(** The records that reach the writer are written on one line each,
    provided the platform renders a [double] on one line. *)
Lemma named_arrivals_one_line (w : world) (animals : list Animal) (w1 : world) :
  (forall d, one_line (put_double d)) ->
  named_arrivals w = Returns animals w1 ->
  Forall (fun animal => one_line (record_text animal)) animals.
Proof.
  intros Hput Hrun.
  pose proof (named_arrivals_outcome w) as Hout. rewrite Hrun in Hout.
  destruct Hout as (_ & _ & loaded & Hrec & Hnamed).
  pose proof (names_after_one_line _
                (lines_of_one_line (readable_text w "animalNames.txt"))) as Hm.
  assert (Hloaded :
            Forall (fun a => one_line (species a) /\ one_line (birthSeason a) /\
                             one_line (color a) /\ one_line (origin a)) loaded).
  { assert (Hlines : Forall one_line
                       (filter six_fields
                          (lines_of (readable_text w "arrivingAnimals.txt")))).
    { apply Forall_forall. intros l Hl. apply filter_In in Hl.
      pose proof (lines_of_one_line (readable_text w "arrivingAnimals.txt")) as Hall.
      rewrite Forall_forall in Hall. apply Hall. tauto. }
    clear Hnamed.
    induction Hrec as [|l a ls loaded Hla _ IH]; [constructor|].
    inversion Hlines; subst.
    constructor; [apply (record_of_one_line l a); assumption | apply IH; assumption]. }
  clear Hrec Hrun.
  induction Hnamed as [|a a' loaded animals Ha _ IH]; [constructor|].
  inversion Hloaded as [|? ? (Hs & Hb & Hc & Ho) Hrest]; subst.
  constructor; [|apply IH; exact Hrest].
  destruct Ha as (n & -> & Hn).
  apply record_text_one_line; try assumption.
  exact (names_for_one_line _ _ _ Hm Hn).
Qed.

End OneLine.

(* ================================================================== *)
(** * Runs of [main] *)
(* ================================================================== *)

Lemma append_target_writable (w : world) (path : string) (f : file) :
  append_target w path = Some f -> f_write f = true.
Proof.
  unfold append_target. destruct (files w path) as [g|].
  - destruct (f_write g) eqn:Hw; [|discriminate].
    intros Heq; inversion Heq; subst; exact Hw.
  - destruct (can_create w); [|discriminate].
    intros Heq; inversion Heq; reflexivity.
Qed.

Lemma append_target_same (w w' : world) (path : string) :
  files w' = files w -> can_create w' = can_create w ->
  append_target w' path = append_target w path.
Proof. intros Hf Hc. unfold append_target. rewrite Hf, Hc. reflexivity. Qed.

Lemma append_target_existing (w : world) (path : string) (f : file) :
  files w path = Some f -> f_write f = true -> append_target w path = Some f.
Proof. intros Hf Hw. unfold append_target. rewrite Hf, Hw. reflexivity. Qed.

Lemma Forall2_image {A B : Type} (R : A -> B -> Prop) (l : list A)
  (l' : list B) (x : A) :
  Forall2 R l l' -> In x l -> exists y, R x y.
Proof.
  induction 1 as [|a b l l' Hab _ IH]; intros Hin; [destruct Hin|].
  destruct Hin as [<- | Hin]; [exists b; exact Hab | exact (IH Hin)].
Qed.

Section Runs.

Context `{Platform}.

(** A run whose report can be opened for appending adds the lines of its
    records to the report and leaves the other files alone. *)
Lemma main_appends (w : world) (f : file) (animals : list Animal)
  (w1 : world) :
  append_target w "newAnimals.txt" = Some f ->
  named_arrivals w = Returns animals w1 ->
  exists status w',
    main w = Returns status w' /\
    files w' "newAnimals.txt"
    = Some (with_data f (f_data f ++ join_all (map record_line animals))) /\
    (forall p, p <> "newAnimals.txt" -> files w' p = files w p).
Proof.
  intros Htarget Hrun.
  pose proof (named_arrivals_outcome w) as Hout. rewrite Hrun in Hout.
  destruct Hout as (Hf1 & Hc1 & _).
  rewrite <- (append_target_same w w1 _ Hf1 Hc1) in Htarget.
  destruct (updateZooPopulation_opened "newAnimals.txt" animals w1 f Htarget)
    as (w2 & Hupdate & Hdata & Hothers & _).
  destruct (main_after_update w animals w1 w2 Hrun Hupdate)
    as (w' & Hmain & Hf').
  eexists. exists w'. split; [exact Hmain|]. rewrite Hf'.
  split; [exact Hdata|].
  intros p Hp. rewrite (Hothers p Hp), Hf1. reflexivity.
Qed.

(** A second run on the same arrivals file returns as many records as
    the first. *)
Lemma named_arrivals_again (w1 w2 : world) (animals1 : list Animal)
  (wa : world) :
  readable_text w2 "arrivingAnimals.txt"
  = readable_text w1 "arrivingAnimals.txt" ->
  named_arrivals w1 = Returns animals1 wa ->
  exists animals2 wb,
    named_arrivals w2 = Returns animals2 wb /\
    List.length animals2 = List.length animals1.
Proof.
  intros Hsame Hrun1.
  pose proof (named_arrivals_outcome w1) as Hout1. rewrite Hrun1 in Hout1.
  destruct Hout1 as (_ & _ & loaded1 & Hrec1 & Hnamed1).
  pose proof (named_arrivals_outcome w2) as Hout2. rewrite Hsame in Hout2.
  destruct (named_arrivals w2) as [animals2 wb|e wb].
  - destruct Hout2 as (_ & _ & loaded2 & Hrec2 & Hnamed2).
    exists animals2, wb. split; [reflexivity|].
    rewrite <- (Forall2_length Hnamed2), <- (Forall2_length Hnamed1).
    rewrite <- (Forall2_length Hrec2), <- (Forall2_length Hrec1). reflexivity.
  - destruct Hout2 as (line & Hin & Hbad).
    destruct (Forall2_image _ _ _ line Hrec1 Hin) as (a & Ha).
    unfold record_of in Ha. congruence.
Qed.

Lemma main_returns_named (w : world) (status : Z) (w' : world) :
  main w = Returns status w' ->
  exists animals w1, named_arrivals w = Returns animals w1.
Proof.
  intros Hmain. destruct (named_arrivals w) as [animals w1|e w1] eqn:Hrun.
  - exists animals, w1. reflexivity.
  - rewrite (main_uncaught w e w1 Hrun) in Hmain. discriminate.
Qed.

(** The record of the end-to-end arrival. *)
Lemma make_animal_hyena (d : double) :
  stod "45.5" = inr d -> make_animal (fields hyena_line) = inr (hyena d).
Proof.
  intros Hstod.
  assert (Hfields : fields hyena_line
                    = ["4 Hyena"; "born in spring"; "brown"; "45.5";
                       "savanna"; "east"]) by reflexivity.
  rewrite Hfields. unfold make_animal.
  change (part 3 ["4 Hyena"; "born in spring"; "brown"; "45.5";
                  "savanna"; "east"]) with "45.5".
  rewrite Hstod. reflexivity.
Qed.

End Runs.

(** The sample platform renders a weight on one line. *)
Lemma put10_one_line (t : Z) : one_line (Sample.put10 t).
Proof.
  unfold one_line, Sample.put10. rewrite !mem_char_append.
  pose proof (put_int_one_line (Z.abs t / 10)) as Hi.
  pose proof (put_int_one_line (Z.abs t mod 10)) as Hf.
  unfold one_line in Hi, Hf. rewrite Hi.
  destruct (t <? 0)%Z; destruct (Z.abs t mod 10 =? 0)%Z; simpl;
    try reflexivity; exact Hf.
Qed.

(* ================================================================== *)
(** * The entry of the empty species *)
(* ================================================================== *)

Lemma map_find_assign_other (k k0 : string) (v : list string) (m : catalog) :
  k <> k0 -> map_find k0 (map_assign k v m) = map_find k0 m.
Proof.
  intros Hne. induction m as [|[k' v'] m IH]; simpl.
  - destruct (String.eqb_spec k k0); [contradiction | reflexivity].
  - destruct (String.compare k k') eqn:E; simpl.
    + apply String.compare_eq_iff in E. subst k'.
      destruct (String.eqb_spec k k0); [contradiction | reflexivity].
    + destruct (String.eqb_spec k k0); [contradiction | reflexivity].
    + rewrite IH. reflexivity.
Qed.

Lemma map_push_back_other (k k0 x : string) (m : catalog) :
  k <> k0 -> map_find k0 (map_push_back k x m) = map_find k0 m.
Proof.
  intros Hne. unfold map_push_back.
  destruct (map_find k m) as [[k' v]|]; apply map_find_assign_other; exact Hne.
Qed.

(** No name is ever stored under the empty species. *)
Lemma names_line_empty_species (st : catalog * string) (line : string) :
  (forall c, map_find "" (fst st) = Some ("", c) -> c = []) ->
  forall c, map_find "" (fst (names_line st line)) = Some ("", c) -> c = [].
Proof.
  destruct st as [m cur]. unfold names_line. cbn [fst]. intros Hm.
  destruct (empty (trim line)); [exact Hm|].
  destruct (is_header (trim line)); cbn [fst].
  - set (k := trim (substring 0 (String.length (trim line) - 6) (trim line))).
    intros c. destruct (String.eqb_spec k "") as [-> | Hk].
    + rewrite map_find_assign. intros Heq; inversion Heq; reflexivity.
    + rewrite (map_find_assign_other k "" [] m Hk). apply Hm.
  - revert m Hm.
    induction (getlines comma (trim line)) as [|p parts IH]; intros m Hm;
      [exact Hm|].
    cbn [fold_left]. apply IH. unfold add_name.
    destruct (empty (trim p)); [exact Hm|].
    destruct cur as [|x cur]; [exact Hm|]. cbn [empty negb andb].
    intros c. rewrite map_push_back_other by discriminate. apply Hm.
Qed.

Lemma names_after_empty_species (lines : list string) (c : list string) :
  map_find "" (fst (names_after lines)) = Some ("", c) -> c = [].
Proof.
  unfold names_after. revert c.
  assert (Hgen : forall st,
             (forall c, map_find "" (fst st) = Some ("", c) -> c = []) ->
             forall c, map_find "" (fst (fold_left names_line lines st))
                       = Some ("", c) -> c = []).
  { induction lines as [|l lines IH]; intros st Hst; [exact Hst|].
    cbn [fold_left]. apply IH. apply names_line_empty_species. exact Hst. }
  apply Hgen. intros c Hc. discriminate.
Qed.

(* ================================================================== *)
(** * Runs that are settled by evaluation *)
(* ================================================================== *)

(** A computation whose result is a value returns. *)
Lemma returns_of_result {A : Type} (o : outcome A) :
  match result o with
  | inr _ => True
  | inl _ => False
  end ->
  exists a w, o = Returns a w.
Proof.
  destruct o as [a w|e w]; cbn [result]; [|tauto].
  intros _. exists a, w. reflexivity.
Qed.

(* ================================================================== *)
(** * Properties of the name assigner *)
(* ================================================================== *)

(** C4 (no-match fallback).  With the empty catalogue [assignName]
    returns exactly ["Unnamed"], for every species and in every world;
    the world is left as it was (no random number is drawn). *)
Theorem assignName_empty_catalog `{Platform} (species : string) (w : world) :
  assignName species [] w = Returns "Unnamed" w.
Proof. reflexivity. Qed.

(** C10.  When the species is a key of the catalogue and its list of
    candidates is empty, the iterator stays on that entry (the
    case-insensitive scan is not run) and [assignName] returns
    ["Unnamed"], whatever else the catalogue holds, in particular a key
    that differs only in case and has candidates. *)
Theorem assignName_exact_key_without_candidates `{Platform}
  (species : string) (m : catalog) (w : world) :
  map_find species m = Some (species, []) ->
  lookup_species species m = Some (species, []) /\
  assignName species m w = Returns "Unnamed" w.
Proof.
  intros Hf. apply lookup_species_exact in Hf. split; [exact Hf|].
  exact (assignName_no_candidates species species m w Hf).
Qed.

Lemma assignName_exact_key_without_candidates_witness :
  map_find "Hyena" empty_Hyena = Some ("Hyena", []) /\
  find (same_ignoring_case "Hyena") (tl empty_Hyena) = Some ("hyena", ["Rex"]) /\
  lookup_species "Hyena" empty_Hyena = Some ("Hyena", []) /\
  @assignName Sample.platform "Hyena" empty_Hyena (Sample.start (fun _ => None) 7)
  = Returns "Unnamed" (Sample.start (fun _ => None) 7).
Proof.
  split; [reflexivity|]. split; [reflexivity|].
  exact (@assignName_exact_key_without_candidates Sample.platform
           "Hyena" empty_Hyena (Sample.start (fun _ => None) 7) eq_refl).
Defined.

(** C2 as stated fails.  The names file with the lines ["Hyena
    Names:"], ["hyena names:"], ["Rex"] loads as the catalogue [{"Hyena":
    [], "hyena": ["Rex"]}], which has both keys; there
    [assignName("Hyena", _)] returns ["Unnamed"], which is not a
    candidate stored under ["Hyena"]. *)
Lemma empty_Hyena_list_gives_Unnamed :
  loadAnimalNames "animalNames.txt"
    (Sample.start (Sample.directory empty_Hyena_txt "" None) 7)
  = Returns empty_Hyena
      (Sample.start (Sample.directory empty_Hyena_txt "" None) 7) /\
  map_wf empty_Hyena /\
  map_find "Hyena" empty_Hyena = Some ("Hyena", []) /\
  map_find "hyena" empty_Hyena = Some ("hyena", ["Rex"]) /\
  @assignName Sample.platform "Hyena" empty_Hyena
    (Sample.start (Sample.directory empty_Hyena_txt "" None) 7)
  = Returns "Unnamed"
      (Sample.start (Sample.directory empty_Hyena_txt "" None) 7) /\
  ~ In "Unnamed" (@nil string).
Proof.
  split; [reflexivity|].
  split; [split; [reflexivity | exact I]|].
  split; [reflexivity|]. split; [reflexivity|]. split; [reflexivity|].
  intros [].
Qed.

(** C2, amended (exact-match priority).  In every catalogue that has
    both the key ["Hyena"] and the key ["hyena"], and for every draw,
    [assignName("Hyena", _)] answers from the entry of ["Hyena"] alone:
    when its list has candidates the result is the one the draw selects
    from it, hence a member of that list; when the list is empty the
    result is ["Unnamed"].  The list under ["hyena"] plays no part. *)
Theorem assignName_exact_match_priority `{Platform}
  (m : catalog) (candidates others : list string) (w : world) :
  map_find "Hyena" m = Some ("Hyena", candidates) ->
  map_find "hyena" m = Some ("hyena", others) ->
  (candidates <> [] ->
   assignName "Hyena" m w =
   Returns (drawn (rand_seq (rand_seed w) (rand_calls w)) candidates)
           (with_rand (rand_seed w) (S (rand_calls w)) w) /\
   In (drawn (rand_seq (rand_seed w) (rand_calls w)) candidates) candidates) /\
  (candidates = [] -> assignName "Hyena" m w = Returns "Unnamed" w).
Proof.
  intros Hexact _. apply lookup_species_exact in Hexact. split.
  - intros Hne. split; [|apply drawn_In; exact Hne].
    exact (assignName_found "Hyena" "Hyena" candidates m w Hexact Hne).
  - intros ->. exact (assignName_no_candidates "Hyena" "Hyena" m w Hexact).
Qed.

Lemma assignName_exact_match_priority_witness :
  map_find "Hyena" two_hyenas = Some ("Hyena", ["Spot"; "Scar"]) /\
  map_find "hyena" two_hyenas = Some ("hyena", ["Rex"]) /\
  @assignName Sample.platform "Hyena" two_hyenas (Sample.start (fun _ => None) 7)
  = Returns "Spot"
      (with_rand 1 1 (Sample.start (fun _ => None) 7)).
Proof.
  split; [reflexivity|]. split; [reflexivity|].
  refine (eq_trans
            (proj1 (proj1 (@assignName_exact_match_priority Sample.platform
                             two_hyenas ["Spot"; "Scar"] ["Rex"]
                             (Sample.start (fun _ => None) 7)
                             eq_refl eq_refl) _)) _).
  - discriminate.
  - vm_compute. reflexivity.
Defined.

(** C3 (case-insensitive fallback).  For the catalogue [{"Lion":
    ["Leo", "Nala"]}] and the species ["lion"], [assignName] returns
    ["Leo"] or ["Nala"] for every draw, never ["Unnamed"].  In general,
    when no key equals the species, the iterator is the first entry in
    the catalogue's iteration order whose lowercased key equals the
    lowercased species, and when that entry has candidates the result is
    the member of its list that the draw selects. *)
Theorem assignName_case_insensitive_fallback `{Platform} :
  (forall w : world,
     exists n w',
       assignName "lion" lions w = Returns n w' /\
       (n = "Leo" \/ n = "Nala") /\ n <> "Unnamed") /\
  (forall (species : string) (m : catalog),
     map_find species m = None ->
     lookup_species species m = find (same_ignoring_case species) m) /\
  (forall (species key : string) (candidates : list string) (m : catalog)
          (w : world),
     map_find species m = None ->
     find (same_ignoring_case species) m = Some (key, candidates) ->
     candidates <> [] ->
     assignName species m w =
     Returns (drawn (rand_seq (rand_seed w) (rand_calls w)) candidates)
             (with_rand (rand_seed w) (S (rand_calls w)) w) /\
     In (drawn (rand_seq (rand_seed w) (rand_calls w)) candidates) candidates).
Proof.
  split; [|split].
  - intros w.
    assert (Hit : lookup_species "lion" lions = Some ("Lion", ["Leo"; "Nala"]))
      by reflexivity.
    assert (Hne : ["Leo"; "Nala"] <> @nil string) by discriminate.
    pose proof (assignName_found "lion" "Lion" _ lions w Hit Hne) as Hrun.
    pose proof (drawn_In (rand_seq (rand_seed w) (rand_calls w)) _ Hne) as Hin.
    eexists; eexists. split; [exact Hrun|].
    destruct Hin as [<- | [<- | []]]; (split; [auto | discriminate]).
  - intros species m Hf. apply lookup_species_fallback; exact Hf.
  - intros species key candidates m w Hf Hscan Hne.
    rewrite <- (lookup_species_fallback species m Hf) in Hscan.
    split; [|apply drawn_In; exact Hne].
    exact (assignName_found species key candidates m w Hscan Hne).
Qed.

Lemma assignName_case_insensitive_fallback_witness :
  map_find "HYENA" two_hyenas = None /\
  find (same_ignoring_case "HYENA") two_hyenas
  = Some ("Hyena", ["Spot"; "Scar"]) /\
  lookup_species "HYENA" two_hyenas = Some ("Hyena", ["Spot"; "Scar"]) /\
  In (drawn (@rand_seq Sample.platform 1 0) ["Spot"; "Scar"]) ["Spot"; "Scar"].
Proof.
  split; [reflexivity|]. split; [reflexivity|]. split.
  - exact (eq_trans
             (proj1 (proj2 (@assignName_case_insensitive_fallback
                              Sample.platform))
                "HYENA" two_hyenas eq_refl) eq_refl).
  - refine (proj2 (proj2 (proj2 (@assignName_case_insensitive_fallback
                                   Sample.platform))
                     "HYENA" "Hyena" ["Spot"; "Scar"] two_hyenas
                     (Sample.start (fun _ => None) 7) eq_refl eq_refl _)).
    discriminate.
Defined.

(* ================================================================== *)
(** * Properties of the two loaders *)
(* ================================================================== *)

(** C9.  A header whose species part is empty (the trimmed line is
    ["Names:"] or ["names:"]) puts the empty string into the catalogue
    with an empty list of candidates and makes it the current species;
    the names on the data lines that follow are dropped, so the
    catalogue the loader returns is the one built before the header plus
    that empty entry.  Whatever the file, the list under the empty
    string is empty in the catalogue that is returned. *)
Theorem loadAnimalNames_header_without_species
  (filename text : string) (before : list string) (header : string)
  (data : list string) (w : world) :
  ifstream filename w = Returns (Some text) w ->
  getlines newline text = before ++ header :: data ->
  trim header = "Names:" \/ trim header = "names:" ->
  Forall not_header data ->
  loadAnimalNames filename w
  = Returns (map_assign "" [] (fst (names_after before))) w /\
  map_find "" (map_assign "" [] (fst (names_after before))) = Some ("", []) /\
  snd (names_after (before ++ header :: data)) = "" /\
  (forall (lines : list string) (candidates : list string),
     map_find "" (fst (names_after lines)) = Some ("", candidates) ->
     candidates = []).
Proof.
  intros Hopen Hlines Hheader Hdata.
  assert (Hafter : names_after (before ++ header :: data)
                   = (map_assign "" [] (fst (names_after before)), "")).
  { unfold names_after. rewrite fold_left_app. cbn [fold_left].
    rewrite (names_line_bare_header _ header Hheader).
    apply names_lines_data_without_species. exact Hdata. }
  rewrite (loadAnimalNames_readable filename text w Hopen), Hlines, Hafter.
  split; [reflexivity|]. split; [apply map_find_assign|].
  split; [reflexivity | exact names_after_empty_species].
Qed.

Lemma loadAnimalNames_header_without_species_witness :
  let w := Sample.start (Sample.directory bare_header_txt "" None) 0 in
  getlines newline bare_header_txt
  = ["Hyena Names:"; "Spot, Scar"] ++ "Names:" :: ["Rex, Max"; "Tom"] /\
  loadAnimalNames "animalNames.txt" w
  = Returns [("", []); ("Hyena", ["Spot"; "Scar"])] w.
Proof.
  split; [reflexivity|].
  refine (eq_trans
            (proj1 (loadAnimalNames_header_without_species
                      "animalNames.txt" bare_header_txt
                      ["Hyena Names:"; "Spot, Scar"] "Names:"
                      ["Rex, Max"; "Tom"]
                      (Sample.start (Sample.directory bare_header_txt "" None) 0)
                      eq_refl eq_refl (or_introl eq_refl) _)) eq_refl).
  repeat constructor.
Defined.

(** C5 as stated fails.  In the arrivals file with the lines ["short"],
    ["4 Hyena, spring, brown, 45.5, savanna, east"], ["x Lion, summer,
    gold, 190, plains, west"], ["also short"], the age of the third line
    does not convert: [stoi] throws, nothing catches the exception and
    the loader returns no list.  The second line, with six fields and a
    parseable age and weight, contributes no record, and the fourth
    line, not blank and with fewer than six fields, gets no diagnostic:
    [std::cerr] holds the diagnostic of the first line only. *)
Lemma bad_age_stops_the_loader :
  let w := Sample.start (Sample.directory "" bad_age_txt None) 0 in
  readable_text w "arrivingAnimals.txt" = Some bad_age_txt /\
  filter too_short (getlines newline bad_age_txt) = ["short"; "also short"] /\
  In "4 Hyena, spring, brown, 45.5, savanna, east"
     (filter six_fields (getlines newline bad_age_txt)) /\
  @parseable Sample.platform "4 Hyena, spring, brown, 45.5, savanna, east" /\
  thrown (@loadArrivingAnimals Sample.platform "arrivingAnimals.txt" w)
  = Some invalid_argument /\
  cerr (final_world
          (@loadArrivingAnimals Sample.platform "arrivingAnimals.txt" w))
  = ("Invalid record: short" ++ endl)%string.
Proof.
  intros w. split; [reflexivity|]. split; [reflexivity|].
  split; [left; reflexivity|].
  split; [exists 4%Z, 455%Z; split; reflexivity|].
  split; vm_compute; reflexivity.
Qed.

(** C5, amended (malformed records are dropped).  For every readable
    arrivals file: the loader returns exactly when the age and the
    weight of every line with at least six fields can be converted; and
    when it returns, the list holds one record for each such line, in the
    order of the file, and nothing for the other lines, while [std::cerr]
    has received one diagnostic, naming the trimmed line, for each line
    that is not blank and has fewer than six fields, in the order of the
    file, and nothing else has changed. *)
Theorem loadArrivingAnimals_drops_short_lines `{Platform}
  (filename text : string) (w : world) :
  ifstream filename w = Returns (Some text) w ->
  ((exists animals w', loadArrivingAnimals filename w = Returns animals w') <->
   Forall parseable (filter six_fields (getlines newline text))) /\
  (forall animals w',
     loadArrivingAnimals filename w = Returns animals w' ->
     Forall2 record_of (filter six_fields (getlines newline text)) animals /\
     logged
       (join_all (map diagnostic (filter too_short (getlines newline text))))
       w w').
Proof.
  intros Hopen. rewrite (loadArrivingAnimals_readable filename text w Hopen).
  split; [apply arrival_lines_return|].
  intros animals w' Hrun.
  pose proof (arrival_lines_outcome (getlines newline text) [] w) as Hout.
  rewrite Hrun in Hout. destruct Hout as (added & -> & Hrec & Hlog).
  split; [exact Hrec | exact Hlog].
Qed.

Lemma loadArrivingAnimals_drops_short_lines_witness :
  let w := Sample.start (Sample.directory "" mixed_arrivals_txt None) 0 in
  filter six_fields (getlines newline mixed_arrivals_txt)
  = ["-3 lion cub, x,, 12,e,f,g,h"] /\
  filter too_short (getlines newline mixed_arrivals_txt) = ["a,b,c"; "4"] /\
  exists animals w',
    @loadArrivingAnimals Sample.platform "arrivingAnimals.txt" w
    = Returns animals w' /\
    List.length animals = 1%nat /\
    cerr w' = ("Invalid record: a,b,c" ++ endl ++ "Invalid record: 4" ++ endl)%string.
Proof.
  split; [reflexivity|]. split; [reflexivity|].
  pose (w := Sample.start (Sample.directory "" mixed_arrivals_txt None) 0).
  destruct (returns_of_result
              (@loadArrivingAnimals Sample.platform "arrivingAnimals.txt" w))
    as (animals & w' & Hrun); [vm_compute; exact I|].
  exists animals, w'. split; [exact Hrun|].
  destruct (proj2 (@loadArrivingAnimals_drops_short_lines Sample.platform
                     "arrivingAnimals.txt" mixed_arrivals_txt w eq_refl)
              animals w' Hrun) as [Hrec Hlog].
  split.
  - exact (eq_sym (Forall2_length Hrec)).
  - exact (proj2 (proj2 (proj2 (proj2 (proj2 (proj2 Hlog)))))).
Defined.

(* ================================================================== *)
(** * Properties of the pipeline *)
(* ================================================================== *)

(** C7 as stated fails.  With no names file, the arrivals file
    [bad_age_txt] and a report that can be read and written, [main] does
    not return: the age ["x"] of the third line does not convert, [stoi]
    throws and nothing catches the exception, so the process ends
    without the status 0 although an input file is missing, and ends
    abnormally although the report could have been reopened. *)
Lemma bad_age_ends_main_without_status :
  let w := Sample.start bad_age_directory 0 in
  readable_text w "animalNames.txt" = None /\
  readable_text w "newAnimals.txt" = Some ("kept" ++ endl)%string /\
  result (@main Sample.platform w) = inl invalid_argument /\
  readable_text (final_world (@main Sample.platform w)) "newAnimals.txt"
  = Some ("kept" ++ endl)%string.
Proof.
  intros w. split; [reflexivity|]. split; [reflexivity|].
  split; vm_compute; reflexivity.
Qed.

(** C7, amended (exit status).  Whenever [main] returns, its status is 0
    if [newAnimals.txt] can be opened for reading at the display step
    and 1 if it cannot; no other status occurs.  A missing or unreadable
    input file does not stop the run: either loader then writes one line
    to [std::cerr] and returns an empty result, and [main] fails to
    return only by an uncaught conversion error on a line with six
    fields of a readable arrivals file, so it returns in particular
    whenever the arrivals file cannot be read, whatever the state of the
    names file. *)
Theorem main_exit_status `{Platform} (w : world) :
  match main w with
  | Returns status w' =>
      status = match readable_text w' "newAnimals.txt" with
               | Some _ => 0%Z
               | None => 1%Z
               end
  | Uncaught e _ =>
      exists line,
        In line (filter six_fields
                   (lines_of (readable_text w "arrivingAnimals.txt"))) /\
        make_animal (fields line) = inl e
  end /\
  (readable_text w "arrivingAnimals.txt" = None ->
   exists status w', main w = Returns status w') /\
  (forall filename : string,
     readable_text w filename = None ->
     loadAnimalNames filename w
     = Returns []
         (with_cerr (cerr w ++ ("Error opening file: " ++ filename ++ endl)) w)
     /\
     loadArrivingAnimals filename w
     = Returns []
         (with_cerr (cerr w ++ ("Error opening file: " ++ filename ++ endl)) w)).
Proof.
  split; [|split].
  - pose proof (named_arrivals_outcome w) as Hnamed.
    destruct (named_arrivals w) as [animals w1|e w1] eqn:Hrun.
    + destruct (updateZooPopulation_returns "newAnimals.txt" animals w1)
        as (w2 & Hupdate).
      destruct (main_after_update w animals w1 w2 Hrun Hupdate)
        as (w' & Hmain & Hfiles).
      rewrite Hmain. unfold readable_text. rewrite Hfiles. reflexivity.
    + rewrite (main_uncaught w e w1 Hrun). exact Hnamed.
  - intros Hnone.
    pose proof (named_arrivals_outcome w) as Hnamed.
    destruct (named_arrivals w) as [animals w1|e w1] eqn:Hrun.
    + destruct (updateZooPopulation_returns "newAnimals.txt" animals w1)
        as (w2 & Hupdate).
      destruct (main_after_update w animals w1 w2 Hrun Hupdate)
        as (w' & Hmain & _).
      eexists; exists w'; exact Hmain.
    + rewrite Hnone in Hnamed. destruct Hnamed as (line & [] & _).
  - intros filename Hnone. split.
    + unfold loadAnimalNames. unfold bind at 1.
      rewrite ifstream_readable_text, Hnone. reflexivity.
    + apply loadArrivingAnimals_unreadable.
      rewrite ifstream_readable_text, Hnone. reflexivity.
Qed.

Lemma main_exit_status_witness :
  let w := Sample.start (fun _ => None) 0 in
  readable_text w "arrivingAnimals.txt" = None /\
  (exists status w', @main Sample.platform w = Returns status w') /\
  @loadArrivingAnimals Sample.platform "arrivingAnimals.txt" w
  = Returns []
      (with_cerr ("Error opening file: arrivingAnimals.txt" ++ endl) w).
Proof.
  split; [reflexivity|]. split.
  - exact (proj1 (proj2 (@main_exit_status Sample.platform
                           (Sample.start (fun _ => None) 0))) eq_refl).
  - exact (proj2 (proj2 (proj2 (@main_exit_status Sample.platform
                                  (Sample.start (fun _ => None) 0)))
                    "arrivingAnimals.txt" eq_refl)).
Defined.



(** C6 (append-only growth).  When the report can be opened for
    appending (it exists and is writable, or it is absent and is then
    created empty), [updateZooPopulation] leaves every byte the file held
    in place and adds after them the lines of the records, one line per
    record in the order of the list; no other file changes.  Hence, on a
    platform that renders a [double] on one line, a second run of [main]
    that finds the arrivals file and the report as the first run left
    them returns, and the line count of the report after it is the line
    count after the first run plus the number of records of the second
    run. *)
Theorem report_grows_by_appending `{Platform} :
  (forall (filename : string) (animals : list Animal) (w : world) (f : file),
     append_target w filename = Some f ->
     exists w',
       updateZooPopulation filename animals w = Returns tt w' /\
       files w' filename
       = Some (with_data f
                 (f_data f ++ join_all (map record_line animals))) /\
       (forall p, p <> filename -> files w' p = files w p)) /\
  ((forall d, one_line (put_double d)) ->
   forall (w1 : world) (f : file) (status1 : Z) (w1' w2 : world),
     append_target w1 "newAnimals.txt" = Some f ->
     main w1 = Returns status1 w1' ->
     files w2 "arrivingAnimals.txt" = files w1' "arrivingAnimals.txt" ->
     files w2 "newAnimals.txt" = files w1' "newAnimals.txt" ->
     exists status2 w2' animals2 wn f1 f2,
       named_arrivals w2 = Returns animals2 wn /\
       main w2 = Returns status2 w2' /\
       files w1' "newAnimals.txt" = Some f1 /\
       files w2' "newAnimals.txt" = Some f2 /\
       line_count (f_data f2)
       = (line_count (f_data f1) + List.length animals2)%nat).
Proof.
  split.
  - intros filename animals w f Htarget.
    destruct (updateZooPopulation_opened filename animals w f Htarget)
      as (w' & Hrun & Hdata & Hothers & _).
    exists w'. split; [exact Hrun|]. split; [exact Hdata | exact Hothers].
  - intros Hput w1 f status1 w1' w2 Htarget Hmain1 Harrivals Hreport.
    destruct (main_returns_named w1 status1 w1' Hmain1)
      as (animals1 & wa & Hnamed1).
    destruct (main_appends w1 f animals1 wa Htarget Hnamed1)
      as (status & w' & Hmain & Hdata1 & Hothers1).
    rewrite Hmain1 in Hmain. inversion Hmain; subst status w'; clear Hmain.
    set (f1 := with_data f (f_data f ++ join_all (map record_line animals1)))
      in *.
    assert (Hsame : readable_text w2 "arrivingAnimals.txt"
                    = readable_text w1 "arrivingAnimals.txt").
    { unfold readable_text. rewrite Harrivals, Hothers1; [reflexivity|].
      discriminate. }
    destruct (named_arrivals_again w1 w2 animals1 wa Hsame Hnamed1)
      as (animals2 & wn & Hnamed2 & Hlen).
    assert (Htarget2 : append_target w2 "newAnimals.txt" = Some f1).
    { apply append_target_existing; [rewrite Hreport; exact Hdata1|].
      exact (append_target_writable _ _ _ Htarget). }
    destruct (main_appends w2 f1 animals2 wn Htarget2 Hnamed2)
      as (status2 & w2' & Hmain2 & Hdata2 & _).
    exists status2, w2', animals2, wn, f1.
    eexists. split; [exact Hnamed2|]. split; [exact Hmain2|].
    split; [exact Hdata1|]. split; [exact Hdata2|].
    cbn [with_data f_data].
    pose proof (named_arrivals_one_line w2 animals2 wn Hput Hnamed2) as Hlines.
    destruct animals1 as [|a1 animals1].
    + destruct animals2; [|discriminate]. simpl.
      rewrite append_empty_r. rewrite Nat.add_0_r. reflexivity.
    + apply line_count_appended; [|exact Hlines].
      apply complete_app_r; [|apply record_lines_complete].
      apply record_lines_nonempty. discriminate.
Qed.

Lemma report_grows_by_appending_witness :
  let w1 := Sample.start
              (Sample.directory Sample.names_txt Sample.arrivals_txt
                 (Some (Sample.readable "old")))
              1000 in
  append_target w1 "newAnimals.txt" = Some (Sample.readable "old") /\
  exists status1 w1',
    @main Sample.platform w1 = Returns status1 w1' /\
    exists status2 w2' animals2 wn f1 f2,
      @named_arrivals Sample.platform w1' = Returns animals2 wn /\
      @main Sample.platform w1' = Returns status2 w2' /\
      files w1' "newAnimals.txt" = Some f1 /\
      files w2' "newAnimals.txt" = Some f2 /\
      line_count (f_data f2)
      = (line_count (f_data f1) + List.length animals2)%nat.
Proof.
  intros w1. split; [reflexivity|].
  destruct (returns_of_result (@main Sample.platform w1))
    as (status1 & w1' & Hmain); [vm_compute; exact I|].
  exists status1, w1'. split; [exact Hmain|].
  exact (proj2 (@report_grows_by_appending Sample.platform)
           put10_one_line w1 (Sample.readable "old") status1 w1' w1'
           eq_refl Hmain eq_refl eq_refl).
Defined.

(** C1 (end to end).  With a names file whose lines are ["Hyena
    Names:"], ["Spot, Scar"], ["Lion Names:"], ["Leo, Nala"], an arrivals
    file whose only line is ["4 Hyena, born in spring, brown, 45.5,
    savanna, east"] and a report that can be opened for appending, on a
    platform where the text ["45.5"] converts to a [double] that is
    rendered as ["45.5"], [main] returns and has added exactly one line
    to the report: ["N, Hyena, 4, born in spring, brown, 45.5, savanna
    east"] with [N] one of ["Spot"] and ["Scar"], whatever the clock and
    the random number generator. *)
Theorem end_to_end_one_line `{Platform}
  (w : world) (f : file) (names arrivals : string) (d : double) :
  stod "45.5" = inr d ->
  put_double d = "45.5" ->
  readable_text w "animalNames.txt" = Some names ->
  getlines newline names
  = ["Hyena Names:"; "Spot, Scar"; "Lion Names:"; "Leo, Nala"] ->
  readable_text w "arrivingAnimals.txt" = Some arrivals ->
  getlines newline arrivals = [hyena_line] ->
  append_target w "newAnimals.txt" = Some f ->
  exists status w' n,
    main w = Returns status w' /\
    (n = "Spot" \/ n = "Scar") /\
    files w' "newAnimals.txt"
    = Some (with_data f
              (f_data f ++ n ++
               ", Hyena, 4, born in spring, brown, 45.5, savanna east" ++
               endl)).
Proof.
  intros Hstod Hput Hnames Hnlines Harrivals Halines Htarget.
  pose proof (named_arrivals_outcome w) as Hout.
  rewrite Hnames, Harrivals in Hout. cbn [lines_of] in Hout.
  rewrite Hnlines, Halines in Hout.
  change (fst (names_after
                 ["Hyena Names:"; "Spot, Scar"; "Lion Names:"; "Leo, Nala"]))
    with zoo_catalog in Hout.
  change (filter six_fields [hyena_line]) with [hyena_line] in Hout.
  pose proof (make_animal_hyena d Hstod) as Hmake.
  destruct (named_arrivals w) as [animals w1|e w1] eqn:Hrun.
  - destruct Hout as (_ & _ & loaded & Hrec & Hnamed).
    inversion Hrec as [|l a ls loaded' Hla Hrest]; subst.
    inversion Hrest; subst. unfold record_of in Hla.
    rewrite Hmake in Hla. inversion Hla; subst a; clear Hla Hrec Hrest.
    inversion Hnamed as [|a a' ls animals' Ha Hrest]; subst.
    inversion Hrest; subst. clear Hnamed Hrest.
    destruct Ha as (n & -> & Hn).
    destruct (main_appends w f _ w1 Htarget Hrun)
      as (status & w' & Hmain & Hdata & _).
    exists status, w', n. split; [exact Hmain|].
    assert (Hchoice : n = "Spot" \/ n = "Scar").
    { unfold names_for in Hn. cbn in Hn.
      destruct Hn as [<- | [<- | []]]; [left | right]; reflexivity. }
    split; [exact Hchoice|]. rewrite Hdata.
    unfold record_line. cbn [map join_all fold_right set_name hyena name
                              species age birthSeason color weight origin].
    rewrite Hput, append_empty_r. reflexivity.
  - destruct Hout as (line & [<- | []] & Hbad). congruence.
Qed.

Lemma end_to_end_one_line_witness :
  let w := Sample.start
             (Sample.directory Sample.names_txt Sample.arrivals_txt None) 1000 in
  @stod Sample.platform "45.5" = inr 455%Z /\
  @put_double Sample.platform 455%Z = "45.5" /\
  exists status w' n,
    @main Sample.platform w = Returns status w' /\
    (n = "Spot" \/ n = "Scar") /\
    files w' "newAnimals.txt"
    = Some (with_data {| f_data := ""; f_read := true; f_write := true |}
              ("" ++ n ++
               ", Hyena, 4, born in spring, brown, 45.5, savanna east" ++
               endl)).
Proof.
  intros w. split; [reflexivity|]. split; [reflexivity|].
  exact (@end_to_end_one_line Sample.platform w
           {| f_data := ""; f_read := true; f_write := true |}
           Sample.names_txt Sample.arrivals_txt 455%Z
           eq_refl eq_refl eq_refl eq_refl eq_refl eq_refl eq_refl).
Defined.

(* ================================================================== *)
(** * Further properties: [trim] *)
(* ================================================================== *)

Lemma find_last_drop_trailing (s : string) :
  match find_last_not_of blanks s with
  | Some i => substring 0 (S i) s = drop_trailing s /\ drop_trailing s <> ""
  | None => drop_trailing s = ""
  end.
Proof.
  induction s as [|c s IH]; [reflexivity|].
  cbn [find_last_not_of drop_trailing].
  destruct (find_last_not_of blanks s) as [i|].
  - destruct IH as [IH Hne]. cbn [substring]. rewrite IH.
    destruct (drop_trailing s); [congruence|]. split; [reflexivity | discriminate].
  - rewrite IH. unfold is_blank.
    destruct (mem_char c blanks); [reflexivity|].
    split; [|discriminate]. cbn [substring]. destruct s; reflexivity.
Qed.

(** [trim] removes the leading blanks, then the trailing ones. *)
Lemma trim_two_steps (s : string) : trim s = drop_trailing (drop_leading s).
Proof.
  induction s as [|c s IH]; [reflexivity|].
  unfold trim in *. cbn [find_first_not_of find_last_not_of drop_leading].
  unfold is_blank. destruct (mem_char c blanks) eqn:Hc.
  - rewrite <- IH.
    destruct (find_first_not_of blanks s) as [start|]; [|reflexivity].
    cbn [option_map].
    destruct (find_last_not_of blanks s) as [e|]; [|reflexivity].
    cbn [substring Nat.sub]. reflexivity.
  - pose proof (find_last_drop_trailing s) as Hlast.
    cbn [drop_trailing]. unfold is_blank. rewrite Hc.
    destruct (find_last_not_of blanks s) as [i|].
    + destruct Hlast as [Hsub Hne].
      replace (S i - 0 + 1) with (S (S i)) by lia.
      cbn [substring]. rewrite Hsub.
      destruct (drop_trailing s); [congruence | reflexivity].
    + rewrite Hlast. cbn. destruct s; reflexivity.
Qed.

Lemma drop_leading_split (s : string) :
  exists before,
    s = (before ++ drop_leading s)%string /\ all_blank before = true /\
    starts_blank (drop_leading s) = false.
Proof.
  induction s as [|c s IH].
  - exists "". repeat split.
  - cbn [drop_leading]. destruct (is_blank c) eqn:Hc.
    + destruct IH as (before & Hs & Hb & Hstart).
      exists (String c before). cbn [append all_blank].
      rewrite <- Hs, Hc, Hb. repeat split. exact Hstart.
    + exists "". repeat split. exact Hc.
Qed.

Lemma drop_trailing_split (s : string) :
  exists after,
    s = (drop_trailing s ++ after)%string /\ all_blank after = true /\
    ends_blank (drop_trailing s) = false /\
    starts_blank (drop_trailing s) = starts_blank s && negb (all_blank s).
Proof.
  induction s as [|c s IH].
  - exists "". repeat split.
  - destruct IH as (after & Hs & Hb & Hend & Hstart).
    cbn [drop_trailing starts_blank all_blank].
    destruct (drop_trailing s) as [|x r] eqn:Hr.
    + simpl in Hs. subst s. rewrite Hb.
      destruct (is_blank c) eqn:Hc.
      * exists (String c after). simpl. rewrite Hc, Hb. repeat split.
      * exists after. simpl. rewrite Hc. repeat split. exact Hb.
    + exists after.
      split; [simpl; f_equal; exact Hs|]. split; [exact Hb|].
      split; [exact Hend|].
      assert (Hnb : all_blank s = false).
      { rewrite Hs. clear -Hend Hr.
        assert (Hgen : forall t u, ends_blank t = false -> t <> "" ->
                                   all_blank (t ++ u) = false).
        { induction t as [|y t IHt]; intros u He Hne; [congruence|].
          simpl. destruct t as [|z t].
          - simpl in He. rewrite He. reflexivity.
          - rewrite (IHt u He) by discriminate. apply andb_false_r. }
        apply Hgen; [exact Hend | discriminate]. }
      rewrite Hnb, andb_false_r. simpl. symmetry. apply andb_true_r.
Qed.

Lemma drop_leading_fixed (s : string) :
  starts_blank s = false -> drop_leading s = s.
Proof. destruct s as [|c s]; simpl; [reflexivity | intros ->; reflexivity]. Qed.

Lemma drop_trailing_fixed (s : string) :
  ends_blank s = false -> drop_trailing s = s.
Proof.
  induction s as [|c s IH]; [reflexivity|]. intros He.
  cbn [drop_trailing]. destruct s as [|x s].
  - simpl in *. rewrite He. reflexivity.
  - rewrite (IH He). reflexivity.
Qed.

Lemma all_blank_append (a b : string) :
  all_blank (a ++ b) = all_blank a && all_blank b.
Proof.
  induction a as [|c a IH]; simpl; [reflexivity|].
  rewrite IH, andb_assoc. reflexivity.
Qed.

Lemma drop_leading_all_blank (s : string) :
  all_blank s = true -> drop_leading s = "".
Proof.
  induction s as [|c s IH]; simpl; [reflexivity|].
  intros Hs. apply andb_prop in Hs. destruct Hs as [Hc Hs].
  rewrite Hc. exact (IH Hs).
Qed.

Lemma trim_ends (s : string) :
  starts_blank (trim s) = false /\ ends_blank (trim s) = false.
Proof.
  rewrite trim_two_steps.
  destruct (drop_leading_split s) as (before & Hs & Hbefore & Hstart).
  destruct (drop_trailing_split (drop_leading s))
    as (after & Hd & Hafter & Hend & Hstart').
  rewrite Hstart in Hstart'. split; [exact Hstart' | exact Hend].
Qed.

(** X1.  [trim] removes blanks (spaces and tabs) at the two ends and
    nothing else: the argument is the result between a run of blanks and
    a run of blanks, the result neither starts nor ends with a blank, and
    it is empty exactly when the argument holds only blanks. *)
Theorem trim_removes_the_outer_blanks (s : string) :
  (exists before after,
     s = (before ++ trim s ++ after)%string /\
     all_blank before = true /\ all_blank after = true) /\
  starts_blank (trim s) = false /\
  ends_blank (trim s) = false /\
  (trim s = "" <-> all_blank s = true).
Proof.
  rewrite trim_two_steps.
  destruct (drop_leading_split s) as (before & Hs & Hbefore & Hstart).
  destruct (drop_trailing_split (drop_leading s))
    as (after & Hd & Hafter & Hend & Hstart').
  rewrite Hstart in Hstart'. cbn [andb] in Hstart'.
  split; [|split; [exact Hstart' | split; [exact Hend|]]].
  - exists before, after. rewrite <- Hd. auto.
  - split.
    + intros Hempty. rewrite Hempty in Hd. cbn [append] in Hd.
      rewrite Hs, Hd, all_blank_append, Hbefore, Hafter. reflexivity.
    + intros Hall. rewrite (drop_leading_all_blank s Hall). reflexivity.
Qed.

(** X2.  [trim] is idempotent, and it leaves a text unchanged exactly
    when the text neither starts nor ends with a blank. *)
Theorem trim_idempotent (s : string) :
  trim (trim s) = trim s /\
  (trim s = s <-> starts_blank s = false /\ ends_blank s = false).
Proof.
  assert (Hfix : forall t, starts_blank t = false -> ends_blank t = false ->
                           trim t = t).
  { intros t Hstart Hend. rewrite trim_two_steps.
    rewrite (drop_leading_fixed t Hstart). apply drop_trailing_fixed, Hend. }
  pose proof (trim_ends s) as [Hstart Hend].
  split; [apply Hfix; assumption|]. split.
  - intros Heq. rewrite <- Heq. split; assumption.
  - intros [Hs He]. apply Hfix; assumption.
Qed.

(* ================================================================== *)
(** * Further properties: reading fields and lines *)
(* ================================================================== *)



(* ================================================================== *)
(** * Further properties: the arrival loader *)
(* ================================================================== *)

Lemma fold_io_app {A S : Type} (body : S -> A -> io S) (l1 l2 : list A) :
  forall (st : S) (w : world),
    fold_io body (l1 ++ l2) st w =
    match fold_io body l1 st w with
    | Returns st' w' => fold_io body l2 st' w'
    | Uncaught e w' => Uncaught e w'
    end.
Proof.
  induction l1 as [|x l1 IH]; intros st w; [reflexivity|].
  cbn [app fold_io]. unfold bind.
  destruct (body st x w) as [st' w'|e w']; [apply IH | reflexivity].
Qed.

(** X4.  The arrival loader stops at the first line with six fields
    whose age or weight cannot be converted: the exception of that line
    leaves the loader, [std::cerr] holds the diagnostics of the short
    lines before it and of no later line, and nothing else has
    changed. *)
Theorem loadArrivingAnimals_stops_at_first_failure `{Platform}
  (filename text : string) (before : list string) (bad : string)
  (after : list string) (e : exn) (w : world) :
  ifstream filename w = Returns (Some text) w ->
  getlines newline text = before ++ bad :: after ->
  Forall parseable (filter six_fields before) ->
  six_fields bad = true ->
  make_animal (fields bad) = inl e ->
  exists w',
    loadArrivingAnimals filename w = Uncaught e w' /\
    logged (join_all (map diagnostic (filter too_short before))) w w'.
Proof.
  intros Hopen Hlines Hbefore Hsix Hbad.
  rewrite (loadArrivingAnimals_readable filename text w Hopen), Hlines.
  rewrite fold_io_app.
  destruct (proj2 (arrival_lines_return before w) Hbefore)
    as (animals & w1 & Hrun).
  pose proof (arrival_lines_outcome before [] w) as Hout.
  rewrite Hrun in Hout. destruct Hout as (_ & _ & _ & Hlog).
  rewrite Hrun. cbn [fold_io]. unfold bind.
  rewrite (arrival_line_six_fields animals bad w1 Hsix), Hbad.
  exists w1. split; [reflexivity | exact Hlog].
Qed.

Lemma loadArrivingAnimals_stops_at_first_failure_witness :
  let w := Sample.start (Sample.directory "" bad_age_txt None) 0 in
  getlines newline bad_age_txt
  = ["short"; "4 Hyena, spring, brown, 45.5, savanna, east"]
    ++ "x Lion, summer, gold, 190, plains, west" :: ["also short"] /\
  exists w',
    @loadArrivingAnimals Sample.platform "arrivingAnimals.txt" w
    = Uncaught invalid_argument w' /\
    cerr w' = ("Invalid record: short" ++ endl)%string.
Proof.
  intros w. split; [reflexivity|].
  destruct (@loadArrivingAnimals_stops_at_first_failure Sample.platform
              "arrivingAnimals.txt" bad_age_txt
              ["short"; "4 Hyena, spring, brown, 45.5, savanna, east"]
              "x Lion, summer, gold, 190, plains, west" ["also short"]
              invalid_argument w eq_refl eq_refl)
    as (w' & Hrun & Hlog).
  - constructor; [|constructor].
    exists 4%Z, 455%Z. split; reflexivity.
  - reflexivity.
  - reflexivity.
  - exists w'. split; [exact Hrun|].
    exact (proj2 (proj2 (proj2 (proj2 (proj2 (proj2 Hlog)))))).
Defined.

(** X5.  Fields after the sixth play no part: a line with more than six
    fields is read like the line cut after its sixth field. *)
Theorem make_animal_ignores_further_fields `{Platform} (parts : list string) :
  6 <= List.length parts ->
  make_animal parts = make_animal (firstn 6 parts).
Proof.
  intros Hlen.
  assert (Hpart : forall i, i < 6 -> part i (firstn 6 parts) = part i parts).
  { intros i Hi. unfold part.
    rewrite <- (firstn_skipn 6 parts) at 2.
    rewrite app_nth1; [reflexivity|]. rewrite length_firstn. lia. }
  unfold make_animal.
  rewrite !Hpart by lia. reflexivity.
Qed.

Lemma make_animal_ignores_further_fields_witness :
  6 <= List.length (fields "4 Hyena, spring, brown, 45.5, savanna, east, extra") /\
  @make_animal Sample.platform
    (fields "4 Hyena, spring, brown, 45.5, savanna, east, extra")
  = @make_animal Sample.platform
      (fields "4 Hyena, spring, brown, 45.5, savanna, east").
Proof.
  split; [vm_compute; repeat constructor|].
  refine (eq_trans (@make_animal_ignores_further_fields Sample.platform _ _) _).
  - vm_compute; repeat constructor.
  - reflexivity.
Defined.

(* ================================================================== *)
(** * Further properties: the catalogue loader *)
(* ================================================================== *)

Lemma loadAnimalNames_returns (filename : string) (w : world) :
  exists w',
    loadAnimalNames filename w
    = Returns (fst (names_after (lines_of (readable_text w filename)))) w'.
Proof.
  destruct (loadAnimalNames_outcome filename w) as (w' & Hrun & _).
  exists w'. exact Hrun.
Qed.

Lemma names_after_clean (lines : list string) :
  Forall one_line lines -> all_candidates clean_name (fst (names_after lines)).
Proof.
  intros Hlines. apply names_lines_all; [constructor|].
  intros line p Hline Hp Hnonempty.
  rewrite Forall_forall in Hlines. specialize (Hlines line Hline).
  pose proof (getlines_clean comma (trim line)) as Hcomma.
  rewrite Forall_forall in Hcomma. specialize (Hcomma p Hp).
  pose proof (absent_getlines newline comma (trim line)
                (absent_trim newline line Hlines)) as Hnl.
  rewrite Forall_forall in Hnl. specialize (Hnl p Hp).
  destruct (trim_ends p) as [Hstart Hend].
  unfold clean_name. split; [|split; [|split; [|split]]].
  - intros Heq. rewrite Heq in Hnonempty. discriminate.
  - apply absent_trim. exact Hcomma.
  - apply absent_trim. exact Hnl.
  - exact Hstart.
  - exact Hend.
Qed.

(** X6.  Every candidate name in the catalogue that [loadAnimalNames]
    returns is clean: not empty, without a comma or a line feed, and
    without a blank at either end. *)
Theorem loadAnimalNames_stores_clean_names (filename : string) (w : world) :
  exists m w',
    loadAnimalNames filename w = Returns m w' /\
    all_candidates clean_name m.
Proof.
  destruct (loadAnimalNames_returns filename w) as (w' & Hrun).
  eexists. exists w'. split; [exact Hrun|].
  apply names_after_clean. apply lines_of_one_line.
Qed.

(** ** Keys *)

Lemma keys_map_assign (k k' : string) (v : list string) (m : catalog) :
  In k' (keys (map_assign k v m)) <-> k' = k \/ In k' (keys m).
Proof.
  unfold keys. induction m as [|[k0 v0] m IH]; simpl.
  - intuition congruence.
  - destruct (String.compare k k0) eqn:E; simpl.
    + apply String.compare_eq_iff in E. subst k0. intuition congruence.
    + intuition congruence.
    + rewrite IH. intuition congruence.
Qed.

Lemma keys_map_push_back (k k' x : string) (m : catalog) :
  In k' (keys (map_push_back k x m)) <-> k' = k \/ In k' (keys m).
Proof.
  unfold map_push_back.
  destruct (map_find k m) as [[k0 v]|]; apply keys_map_assign.
Qed.

Lemma names_line_header (m : catalog) (cur line k : string) :
  header_species line = Some k ->
  names_line (m, cur) line = (map_assign k [] m, k).
Proof.
  unfold header_species, names_line.
  destruct (is_header (trim line)) eqn:Hh; [|discriminate].
  intros Heq; inversion Heq; subst k; clear Heq.
  destruct (trim line) as [|c t]; [discriminate|]. reflexivity.
Qed.

Lemma names_line_data (m : catalog) (cur line : string) :
  header_species line = None ->
  names_line (m, cur) line
  = (fold_left (add_name cur) (getlines comma (trim line)) m, cur).
Proof.
  unfold header_species, names_line.
  destruct (is_header (trim line)) eqn:Hh; [discriminate|]. intros _.
  destruct (trim line) as [|c t]; reflexivity.
Qed.

Lemma not_header_species (line : string) :
  not_header line <-> header_species line = None.
Proof.
  unfold not_header, header_species.
  destruct (is_header (trim line)); split; congruence.
Qed.

Lemma add_names_keys (cur : string) (parts : list string) :
  forall m,
    cur = "" \/ In cur (keys m) ->
    forall k, In k (keys (fold_left (add_name cur) parts m)) <-> In k (keys m).
Proof.
  induction parts as [|p parts IH]; intros m Hcur k; [reflexivity|].
  cbn [fold_left].
  assert (Hstep : forall k', In k' (keys (add_name cur m p)) <-> In k' (keys m)).
  { intros k'. unfold add_name.
    destruct (empty (trim p)); [reflexivity|].
    destruct Hcur as [-> | Hin]; [reflexivity|].
    destruct (empty cur); [reflexivity|]. cbn [negb andb].
    rewrite keys_map_push_back. intuition congruence. }
  rewrite IH; [apply Hstep|].
  destruct Hcur as [-> | Hin]; [left; reflexivity | right; apply Hstep, Hin].
Qed.

Lemma names_lines_keys (lines : list string) :
  forall (st : catalog * string) (seen : list string),
    (forall k, In k (keys (fst st)) <-> In (Some k) (map header_species seen)) ->
    snd st = "" \/ In (snd st) (keys (fst st)) ->
    forall k,
      In k (keys (fst (fold_left names_line lines st)))
      <-> In (Some k) (map header_species (seen ++ lines)).
Proof.
  induction lines as [|l lines IH]; intros [m cur] seen Hkeys Hcur k.
  - rewrite app_nil_r. apply Hkeys.
  - cbn [fold_left fst snd] in *.
    replace (seen ++ l :: lines) with ((seen ++ [l]) ++ lines)
      by (rewrite <- app_assoc; reflexivity).
    destruct (header_species l) as [k0|] eqn:Hl.
    + rewrite (names_line_header m cur l k0 Hl). apply IH; cbn [fst snd].
      * intros k'. rewrite keys_map_assign, map_app, in_app_iff, Hkeys.
        cbn [map In]. rewrite Hl. intuition congruence.
      * right. apply keys_map_assign. left. reflexivity.
    + rewrite (names_line_data m cur l Hl). apply IH; cbn [fst snd].
      * intros k'. rewrite (add_names_keys cur _ m Hcur).
        rewrite map_app, in_app_iff, Hkeys. cbn [map In]. rewrite Hl.
        intuition congruence.
      * destruct Hcur as [-> | Hin]; [left; reflexivity|].
        right. apply (add_names_keys cur _ m (or_intror Hin)). exact Hin.
Qed.

(** X7.  The catalogue that [loadAnimalNames] returns has a key for
    exactly the species that a header line of the file announces, and
    its keys are in strictly increasing byte order, which is the order
    in which [assignName] scans them. *)
Theorem loadAnimalNames_keys_are_the_headers (filename : string) (w : world) :
  exists m w',
    loadAnimalNames filename w = Returns m w' /\
    map_wf m /\
    forall k,
      In k (keys m)
      <-> In (Some k)
            (map header_species (lines_of (readable_text w filename))).
Proof.
  destruct (loadAnimalNames_returns filename w) as (w' & Hrun).
  eexists. exists w'. split; [exact Hrun|].
  split; [apply names_after_wf|].
  intros k. unfold names_after.
  apply (names_lines_keys (lines_of (readable_text w filename)) ([], "") []).
  - intros k'. simpl. tauto.
  - left. reflexivity.
Qed.

(** ** Sections *)

Lemma map_find_key (k : string) (m : catalog) (k' : string)
  (v : list string) :
  map_find k m = Some (k', v) -> k' = k.
Proof.
  induction m as [|[k0 v0] m IH]; simpl; [discriminate|].
  destruct (String.eqb_spec k0 k) as [Heq|_]; [|exact IH].
  intros Hs; inversion Hs; subst; reflexivity.
Qed.

Lemma map_push_back_same (k x : string) (v : list string) (m : catalog) :
  map_find k m = Some (k, v) ->
  map_find k (map_push_back k x m) = Some (k, v ++ [x]).
Proof.
  intros Hf. unfold map_push_back. rewrite Hf. apply map_find_assign.
Qed.

(** The names of a data line are added, in order, to the list of the
    current species, and to no other list. *)
Lemma add_names_contents (cur : string) (parts : list string) :
  cur <> "" ->
  forall (m : catalog) (v : list string),
    map_find cur m = Some (cur, v) ->
    map_find cur (fold_left (add_name cur) parts m)
    = Some (cur, v ++ filter (fun n => negb (empty n)) (map trim parts)) /\
    forall k, k <> cur ->
              map_find k (fold_left (add_name cur) parts m) = map_find k m.
Proof.
  intros Hcur. induction parts as [|p parts IH]; intros m v Hf.
  - simpl. rewrite app_nil_r. split; [exact Hf | reflexivity].
  - cbn [fold_left map filter]. unfold add_name at 2 4.
    assert (Hne : empty cur = false) by (destruct cur; [congruence | reflexivity]).
    rewrite Hne. destruct (empty (trim p)); cbn [negb andb].
    + apply IH. exact Hf.
    + destruct (IH (map_push_back cur (trim p) m) (v ++ [trim p])
                  (map_push_back_same cur (trim p) v m Hf)) as [Hsame Hother].
      split.
      * rewrite Hsame, <- app_assoc. reflexivity.
      * intros k Hk. rewrite (Hother k Hk).
        apply map_push_back_other. congruence.
Qed.

Lemma data_lines_contents (cur : string) (data : list string) :
  cur <> "" ->
  Forall not_header data ->
  forall (m : catalog) (v : list string),
    map_find cur m = Some (cur, v) ->
    map_find cur (fst (fold_left names_line data (m, cur)))
    = Some (cur, v ++ flat_map names_on data) /\
    (forall k, k <> cur ->
               map_find k (fst (fold_left names_line data (m, cur)))
               = map_find k m) /\
    snd (fold_left names_line data (m, cur)) = cur.
Proof.
  intros Hcur Hdata.
  induction Hdata as [|l data Hl _ IH]; intros m v Hf.
  - simpl. rewrite app_nil_r. repeat split. exact Hf.
  - cbn [fold_left flat_map].
    rewrite (names_line_data m cur l (proj1 (not_header_species l) Hl)).
    destruct (add_names_contents cur (getlines comma (trim l)) Hcur m v Hf)
      as [Hsame Hother].
    destruct (IH _ _ Hsame) as (Hsame' & Hother' & Hcur').
    split; [|split; [|exact Hcur']].
    + rewrite Hsame'. unfold names_on at 1. rewrite <- app_assoc. reflexivity.
    + intros k Hk. rewrite (Hother' k Hk). apply Hother. exact Hk.
Qed.

(** X8.  A header starts the list of its species afresh, and the data
    lines that follow it up to the end of the file fill that list, in
    order, with their non-empty trimmed names; the lists of the other
    species are as they were before the header.  In particular an earlier
    section of the same species is replaced, not continued. *)
Theorem loadAnimalNames_last_section
  (filename text : string) (before : list string) (header : string)
  (data : list string) (k : string) (w : world) :
  ifstream filename w = Returns (Some text) w ->
  getlines newline text = before ++ header :: data ->
  header_species header = Some k ->
  k <> "" ->
  Forall not_header data ->
  exists m,
    loadAnimalNames filename w = Returns m w /\
    map_find k m = Some (k, flat_map names_on data) /\
    forall k', k' <> k -> map_find k' m = map_find k' (fst (names_after before)).
Proof.
  intros Hopen Hlines Hheader Hk Hdata.
  rewrite (loadAnimalNames_readable filename text w Hopen), Hlines.
  eexists. split; [reflexivity|].
  unfold names_after. rewrite fold_left_app. cbn [fold_left].
  destruct (fold_left names_line before ([], "")) as [m0 cur0]. cbn [fst].
  rewrite (names_line_header m0 cur0 header k Hheader).
  destruct (data_lines_contents k data Hk Hdata (map_assign k [] m0) []
              (map_find_assign k [] m0)) as (Hsame & Hother & _).
  split; [exact Hsame|].
  intros k' Hk'. rewrite (Hother k' Hk').
  apply map_find_assign_other. congruence.
Qed.

Lemma loadAnimalNames_last_section_witness :
  let w := Sample.start (Sample.directory two_sections_txt "" None) 0 in
  getlines newline two_sections_txt
  = ["Lion Names:"; "Leo"; "Bear Names:"; "Bruno"]
    ++ "Lion Names:" :: [" Nala ,, Simba"; "Kiara,"] /\
  flat_map names_on [" Nala ,, Simba"; "Kiara,"] = ["Nala"; "Simba"; "Kiara"] /\
  exists m,
    loadAnimalNames "animalNames.txt" w = Returns m w /\
    map_find "Lion" m = Some ("Lion", ["Nala"; "Simba"; "Kiara"]) /\
    map_find "Bear" m = Some ("Bear", ["Bruno"]).
Proof.
  intros w. split; [reflexivity|]. split; [reflexivity|].
  destruct (loadAnimalNames_last_section
              "animalNames.txt" two_sections_txt
              ["Lion Names:"; "Leo"; "Bear Names:"; "Bruno"]
              "Lion Names:" [" Nala ,, Simba"; "Kiara,"] "Lion" w
              eq_refl eq_refl eq_refl)
    as (m & Hrun & Hlion & Hothers).
  - discriminate.
  - repeat constructor.
  - exists m. split; [exact Hrun|]. split; [exact Hlion|].
    rewrite (Hothers "Bear"); [reflexivity | discriminate].
Defined.

(** ** Headers *)

Lemma length_append (a b : string) :
  String.length (a ++ b) = String.length a + String.length b.
Proof. induction a as [|c a IH]; simpl; [reflexivity | rewrite IH; reflexivity]. Qed.

Lemma substring_head (a b : string) :
  substring 0 (String.length a) (a ++ b) = a.
Proof.
  induction a as [|c a IH]; simpl.
  - destruct b; reflexivity.
  - rewrite IH. reflexivity.
Qed.

Lemma substring_all (b : string) : substring 0 (String.length b) b = b.
Proof. induction b as [|c b IH]; simpl; [reflexivity | rewrite IH; reflexivity]. Qed.

Lemma substring_tail (a b : string) :
  substring (String.length a) (String.length b) (a ++ b) = b.
Proof.
  induction a as [|c a IH]; simpl; [apply substring_all | exact IH].
Qed.

Lemma substring_split (s : string) :
  forall n, n <= String.length s ->
            s = (substring 0 n s ++ substring n (String.length s - n) s)%string.
Proof.
  induction s as [|c s IH]; intros n Hn.
  - destruct n; reflexivity.
  - destruct n as [|n].
    + simpl. rewrite substring_all. reflexivity.
    + simpl in Hn. cbn [substring String.length Nat.sub append].
      rewrite <- (IH n) by lia. reflexivity.
Qed.

Lemma ends_with_six (l suffix : string) :
  String.length suffix = 6 ->
  ((6 <=? String.length l)%nat = true /\
   substr_from (String.length l - 6) l = suffix)
  <-> exists head, l = (head ++ suffix)%string.
Proof.
  intros Hsix. unfold substr_from. split.
  - intros [Hlen Hsub]. apply Nat.leb_le in Hlen.
    exists (substring 0 (String.length l - 6) l).
    rewrite <- Hsub. apply substring_split. lia.
  - intros [head ->]. rewrite length_append, Hsix. split.
    + apply Nat.leb_le. lia.
    + replace (String.length head + 6 - 6) with (String.length head) by lia.
      replace (String.length head + 6 - String.length head) with 6 by lia.
      rewrite <- Hsix. apply substring_tail.
Qed.

(** X9.  A line is a header exactly when, once trimmed, it ends with
    ["Names:"] or with ["names:"] (and with no other spelling); the
    species it announces is what stands before these six characters,
    trimmed. *)
Theorem header_lines_end_with_Names (line k : string) :
  header_species line = Some k <->
  exists head,
    (trim line = (head ++ "Names:")%string \/
     trim line = (head ++ "names:")%string) /\
    k = trim head.
Proof.
  unfold header_species, is_header.
  pose proof (ends_with_six (trim line) "Names:" eq_refl) as Hupper.
  pose proof (ends_with_six (trim line) "names:" eq_refl) as Hlower.
  split.
  - destruct (6 <=? String.length (trim line))%nat eqn:Hlen;
      [|discriminate].
    cbn [andb].
    destruct (String.eqb_spec
                (substr_from (String.length (trim line) - 6) (trim line))
                "Names:") as [Hu|_]; cbn [orb].
    + intros Heq; inversion Heq; clear Heq.
      destruct (proj1 Hupper (conj eq_refl Hu)) as (head & Hhead).
      exists head. split; [left; exact Hhead|].
      rewrite Hhead, length_append. cbn [String.length].
      replace (String.length head + 6 - 6) with (String.length head) by lia.
      rewrite substring_head. reflexivity.
    + destruct (String.eqb_spec
                  (substr_from (String.length (trim line) - 6) (trim line))
                  "names:") as [Hl|_]; [|discriminate].
      intros Heq; inversion Heq; clear Heq.
      destruct (proj1 Hlower (conj eq_refl Hl)) as (head & Hhead).
      exists head. split; [right; exact Hhead|].
      rewrite Hhead, length_append. cbn [String.length].
      replace (String.length head + 6 - 6) with (String.length head) by lia.
      rewrite substring_head. reflexivity.
  - intros (head & Hends & ->).
    assert (Hsub : substring 0 (String.length (trim line) - 6) (trim line) = head).
    { destruct Hends as [-> | ->]; rewrite length_append; cbn [String.length];
        replace (String.length head + 6 - 6) with (String.length head) by lia;
        apply substring_head. }
    rewrite Hsub.
    destruct Hends as [Hu | Hl].
    + destruct (proj2 Hupper (ex_intro _ head Hu)) as [Hlen Hs].
      rewrite Hlen, Hs. reflexivity.
    + destruct (proj2 Hlower (ex_intro _ head Hl)) as [Hlen Hs].
      rewrite Hlen, Hs.
      destruct (String.eqb "names:" "Names:"); reflexivity.
Qed.

(* ================================================================== *)
(** * Further properties: the name assigner *)
(* ================================================================== *)

Lemma same_ignoring_case_exact (k : string) (v : list string) :
  same_ignoring_case k (k, v) = true.
Proof. unfold same_ignoring_case. apply String.eqb_refl. Qed.

Lemma find_none_iff {A : Type} (f : A -> bool) (l : list A) :
  find f l = None <-> Forall (fun x => f x = false) l.
Proof.
  induction l as [|x l IH]; simpl.
  - split; [constructor | reflexivity].
  - destruct (f x) eqn:Hx.
    + split; [discriminate|]. intros Hall. inversion Hall; congruence.
    + rewrite IH. split.
      * intros Hall. constructor; assumption.
      * intros Hall. inversion Hall; assumption.
Qed.

(** X10.  [assignName] finds no entry at all exactly when no key of the
    catalogue equals the species once both are lowercased; then, and
    when the entry it finds has no candidates, it returns ["Unnamed"]
    and leaves the world, the random number generator included, as it
    was. *)
Theorem assignName_no_entry_means_no_match `{Platform}
  (species_ : string) (m : catalog) (w : world) :
  (lookup_species species_ m = None <->
   Forall (fun entry => same_ignoring_case species_ entry = false) m) /\
  (lookup_species species_ m = None \/
   (exists key, lookup_species species_ m = Some (key, [])) ->
   assignName species_ m w = Returns "Unnamed" w).
Proof.
  split.
  - split.
    + intros Hnone.
      destruct (map_find species_ m) as [entry|] eqn:Hf.
      * apply lookup_species_exact in Hf. congruence.
      * rewrite (lookup_species_fallback species_ m Hf) in Hnone.
        apply find_none_iff. exact Hnone.
    + intros Hall.
      destruct (map_find species_ m) as [[k v]|] eqn:Hf.
      * pose proof (map_find_key _ _ _ _ Hf) as ->.
        apply map_find_In in Hf. rewrite Forall_forall in Hall.
        specialize (Hall _ Hf). rewrite same_ignoring_case_exact in Hall.
        discriminate.
      * rewrite (lookup_species_fallback species_ m Hf).
        apply find_none_iff. exact Hall.
  - intros [Hnone | (key & Hempty)].
    + apply assignName_no_entry. exact Hnone.
    + exact (assignName_no_candidates species_ key m w Hempty).
Qed.

(** ** The order of the scan *)

Lemma ascii_compare_lt_trans (a b c : ascii) :
  Ascii.compare a b = Lt -> Ascii.compare b c = Lt -> Ascii.compare a c = Lt.
Proof.
  unfold Ascii.compare. rewrite !N.compare_lt_iff. apply N.lt_trans.
Qed.

Lemma compare_lt_trans (a : string) :
  forall b c,
    String.compare a b = Lt -> String.compare b c = Lt ->
    String.compare a c = Lt.
Proof.
  induction a as [|x a IH]; intros [|y b] [|z c]; simpl;
    try discriminate; try reflexivity.
  destruct (Ascii.compare x y) eqn:Hxy; try discriminate;
    destruct (Ascii.compare y z) eqn:Hyz; try discriminate.
  - apply Ascii.compare_eq_iff in Hxy, Hyz. subst.
    rewrite (proj2 (N.compare_eq_iff _ _) eq_refl : Ascii.compare z z = Eq).
    apply IH.
  - apply Ascii.compare_eq_iff in Hxy. subst. rewrite Hyz. reflexivity.
  - apply Ascii.compare_eq_iff in Hyz. subst. rewrite Hxy. reflexivity.
  - rewrite (ascii_compare_lt_trans x y z Hxy Hyz). reflexivity.
Qed.

Lemma keys_above_all (m : catalog) :
  forall k0, keys_above k0 m ->
             forall k v, In (k, v) m -> String.compare k0 k = Lt.
Proof.
  induction m as [|[k1 v1] m IH]; intros k0 Hm k v Hin; [destruct Hin|].
  destruct Hm as [Hk1 Hm]. destruct Hin as [Heq | Hin].
  - inversion Heq; subst. exact Hk1.
  - apply (compare_lt_trans k0 k1 k Hk1). exact (IH k1 Hm k v Hin).
Qed.

Lemma map_wf_after (l1 l2 : catalog) (k : string) (v : list string) :
  map_wf (l1 ++ (k, v) :: l2) -> keys_above k l2.
Proof.
  assert (Hgen : forall l k0, keys_above k0 (l ++ (k, v) :: l2) ->
                              keys_above k l2).
  { induction l as [|[k1 v1] l IH]; intros k0 [_ Hm]; [exact Hm|].
    exact (IH k1 Hm). }
  destruct l1 as [|[k1 v1] l1]; simpl; [auto | apply Hgen].
Qed.

Lemma find_split {A : Type} (f : A -> bool) (l : list A) (x : A) :
  find f l = Some x ->
  exists l1 l2,
    l = l1 ++ x :: l2 /\ Forall (fun y => f y = false) l1 /\ f x = true.
Proof.
  induction l as [|y l IH]; simpl; [discriminate|].
  destruct (f y) eqn:Hy.
  - intros Heq; inversion Heq; subst. exists [], l. repeat split; auto.
  - intros Hfind. destruct (IH Hfind) as (l1 & l2 & -> & Hall & Hx).
    exists (y :: l1), l2. repeat split; auto.
Qed.

(** X11.  When the species is not a key and several keys equal it
    once lowercased, [assignName] takes the entry of the smallest of
    them in byte order (capital letters before small ones), the first
    that the scan of the map meets. *)
Theorem assignName_fallback_takes_least_key
  (species_ key : string) (candidates : list string) (m : catalog) :
  map_wf m ->
  map_find species_ m = None ->
  lookup_species species_ m = Some (key, candidates) ->
  In (key, candidates) m /\
  same_ignoring_case species_ (key, candidates) = true /\
  forall key' candidates',
    In (key', candidates') m ->
    same_ignoring_case species_ (key', candidates') = true ->
    key' = key \/ String.compare key key' = Lt.
Proof.
  intros Hwf Hexact Hit.
  rewrite (lookup_species_fallback species_ m Hexact) in Hit.
  destruct (find_split _ _ _ Hit) as (l1 & l2 & -> & Hbefore & Hmatch).
  split; [apply in_elt|]. split; [exact Hmatch|].
  intros key' candidates' Hin Hmatch'.
  apply in_app_or in Hin. destruct Hin as [Hin | [Heq | Hin]].
  - rewrite Forall_forall in Hbefore. rewrite (Hbefore _ Hin) in Hmatch'.
    discriminate.
  - left. congruence.
  - right. exact (keys_above_all l2 key (map_wf_after l1 l2 key candidates Hwf)
                    key' candidates' Hin).
Qed.

Lemma assignName_fallback_takes_least_key_witness :
  map_wf three_hyenas /\
  map_find "hYENA" three_hyenas = None /\
  lookup_species "hYENA" three_hyenas = Some ("HYENA", ["Shenzi"]) /\
  String.compare "HYENA" "Hyena" = Lt /\
  String.compare "HYENA" "hyena" = Lt.
Proof.
  assert (Hwf : map_wf three_hyenas) by (repeat split).
  split; [exact Hwf|]. split; [reflexivity|]. split; [reflexivity|].
  pose proof (proj2 (proj2 (assignName_fallback_takes_least_key
                              "hYENA" "HYENA" ["Shenzi"] three_hyenas
                              Hwf eq_refl eq_refl))) as Hleast.
  split.
  - destruct (Hleast "Hyena" ["Spot"]) as [Heq | Hlt];
      [right; left; reflexivity | reflexivity | discriminate | exact Hlt].
  - destruct (Hleast "hyena" ["Rex"]) as [Heq | Hlt];
      [right; right; left; reflexivity | reflexivity | discriminate | exact Hlt].
Defined.

(* ================================================================== *)
(** * Further properties: what a run changes *)
(* ================================================================== *)

Lemma loadAnimalNames_logged (filename : string) (w : world) :
  exists s, logged s w (final_world (loadAnimalNames filename w)).
Proof.
  unfold loadAnimalNames, bind. rewrite ifstream_readable_text.
  destruct (readable_text w filename) as [text|]; cbn.
  - exists "". apply logged_nothing.
  - eexists. apply logged_cerr_put.
Qed.

Section Traces.

Context `{Platform}.

Lemma arrival_lines_logged (lines : list string) :
  forall (animals : list Animal) (w : world),
    exists s, logged s w (final_world (fold_io arrival_line lines animals w)).
Proof.
  induction lines as [|l lines IH]; intros animals w.
  - exists "". apply logged_nothing.
  - cbn [fold_io]. unfold bind.
    destruct (line_kinds l) as [(Hb & _) | [(_ & Hs & _) | (_ & _ & H6)]].
    + rewrite arrival_line_blank by exact Hb. apply IH.
    + rewrite arrival_line_too_short by exact Hs.
      destruct (IH animals (with_cerr (cerr w ++ diagnostic l) w)) as (s & Hs').
      eexists. eapply logged_trans; [apply logged_cerr_put | exact Hs'].
    + rewrite arrival_line_six_fields by exact H6.
      destruct (make_animal (fields l)) as [e|a].
      * exists "". apply logged_nothing.
      * apply IH.
Qed.

Lemma loadArrivingAnimals_logged (filename : string) (w : world) :
  exists s, logged s w (final_world (loadArrivingAnimals filename w)).
Proof.
  unfold loadArrivingAnimals, bind. rewrite ifstream_readable_text.
  destruct (readable_text w filename) as [text|].
  - apply arrival_lines_logged.
  - eexists. cbn. apply logged_cerr_put.
Qed.

Lemma has_candidates_set_name (m : catalog) (a : Animal) (n : string) :
  has_candidates m (set_name a n) = has_candidates m a.
Proof. reflexivity. Qed.

(** The naming loop draws once for every record whose species has
    candidates and changes nothing else. *)
Lemma name_all_draws (m : catalog) (animals : list Animal) :
  forall w,
    exists animals' w',
      name_all m animals w = Returns animals' w' /\
      files w' = files w /\ can_create w' = can_create w /\
      clock w' = clock w /\ cerr w' = cerr w /\ cout w' = cout w /\
      rand_seed w' = rand_seed w /\
      rand_calls w'
      = rand_calls w + List.length (filter (has_candidates m) animals') /\
      List.length animals' = List.length animals.
Proof.
  unfold name_all.
  induction animals as [|a animals IH]; intros w.
  - exists [], w. cbn. rewrite Nat.add_0_r. repeat split.
  - cbn [for_each_ref]. unfold bind at 1 2.
    unfold has_candidates in *.
    destruct (lookup_species (species a) m) as [[k [|c cs]]|] eqn:Hit.
    + rewrite (assignName_no_candidates _ _ _ _ Hit). unfold ret at 1.
      unfold bind at 1.
      destruct (IH w) as (animals' & w' & Hrun & Hf & Hc & Hk & He & Ho & Hs & Hn & Hl).
      rewrite Hrun. exists (set_name a "Unnamed" :: animals'), w'.
      split; [reflexivity|]. cbn [filter species set_name List.length].
      rewrite Hit. rewrite Hl. repeat split; assumption.
    + assert (Hne : c :: cs <> []) by discriminate.
      rewrite (assignName_found _ _ _ _ w Hit Hne). unfold ret at 1.
      unfold bind at 1.
      set (w1 := with_rand (rand_seed w) (S (rand_calls w)) w).
      destruct (IH w1) as (animals' & w' & Hrun & Hf & Hc & Hk & He & Ho & Hs & Hn & Hl).
      rewrite Hrun. eexists (_ :: animals'), w'.
      split; [reflexivity|]. cbn [filter species set_name List.length].
      rewrite Hit, Hl. cbn [List.length].
      repeat split; try assumption. rewrite Hn. cbn. lia.
    + rewrite (assignName_no_entry _ _ _ Hit). unfold ret at 1.
      unfold bind at 1.
      destruct (IH w) as (animals' & w' & Hrun & Hf & Hc & Hk & He & Ho & Hs & Hn & Hl).
      rewrite Hrun. exists (set_name a "Unnamed" :: animals'), w'.
      split; [reflexivity|]. cbn [filter species set_name List.length].
      rewrite Hit. rewrite Hl. repeat split; assumption.
Qed.

(** Lines 182 to 193, with everything they change. *)
Lemma named_arrivals_trace (w : world) (animals : list Animal) (w1 : world) :
  named_arrivals w = Returns animals w1 ->
  files w1 = files w /\ can_create w1 = can_create w /\
  clock w1 = clock w /\ cout w1 = cout w /\
  (exists s, cerr w1 = (cerr w ++ s)%string) /\
  rand_seed w1 = to_unsigned (clock w) /\
  rand_calls w1
  = List.length
      (filter
         (has_candidates
            (fst (names_after (lines_of (readable_text w "animalNames.txt")))))
         animals).
Proof.
  unfold named_arrivals, time, srand. unfold bind at 1 2 3.
  set (w0 := with_rand (to_unsigned (clock w)) 0 w).
  destruct (loadAnimalNames_logged "animalNames.txt" w0) as (s1 & Hlog1).
  destruct (loadAnimalNames_returns "animalNames.txt" w0) as (wa & Hnames).
  rewrite Hnames in Hlog1 |- *. cbn [final_world] in Hlog1. unfold bind at 1.
  destruct (loadArrivingAnimals_logged "arrivingAnimals.txt" wa) as (s2 & Hlog2).
  destruct (loadArrivingAnimals "arrivingAnimals.txt" wa) as [loaded wb|e wb];
    [|discriminate].
  cbn [final_world] in Hlog2.
  pose proof (logged_trans _ _ _ _ _ Hlog1 Hlog2) as Hlog.
  destruct Hlog as (Hf & Hc & Hk & Hs & Hr & Ho & He).
  destruct (name_all_draws
              (fst (names_after (lines_of (readable_text w0 "animalNames.txt"))))
              loaded wb)
    as (animals' & w' & Hrun & Hf' & Hc' & Hk' & He' & Ho' & Hs' & Hn' & _).
  unfold name_all in Hrun. rewrite Hrun.
  intros Heq; inversion Heq; subst animals' w'; clear Heq.
  rewrite Hf', Hc', Hk', Ho', He', Hs', Hn', Hf, Hc, Hk, Ho, He, Hs, Hr.
  repeat split. exists (s1 ++ s2)%string. reflexivity.
Qed.

End Traces.

(** X12.  [main] seeds the generator once, with the clock reduced
    modulo 2^32, and the naming loop then calls [rand] exactly once for
    each record whose species has an entry with candidates, and not at
    all for a record that is named ["Unnamed"] for want of one. *)
Theorem main_draws_once_per_named_record `{Platform}
  (w : world) (animals : list Animal) (w1 : world) :
  named_arrivals w = Returns animals w1 ->
  rand_seed w1 = to_unsigned (clock w) /\
  rand_calls w1
  = List.length
      (filter
         (has_candidates
            (fst (names_after (lines_of (readable_text w "animalNames.txt")))))
         animals) /\
  rand_calls w1 <= List.length animals.
Proof.
  intros Hrun.
  destruct (named_arrivals_trace w animals w1 Hrun)
    as (_ & _ & _ & _ & _ & Hseed & Hcalls).
  split; [exact Hseed|]. split; [exact Hcalls|].
  rewrite Hcalls. apply filter_length_le.
Qed.

Lemma main_draws_once_per_named_record_witness :
  let w := Sample.start
             (Sample.directory Sample.names_txt Sample.arrivals_txt None) 1000 in
  exists animals w1,
    @named_arrivals Sample.platform w = Returns animals w1 /\
    rand_seed w1 = 1000%N /\
    rand_calls w1 <= List.length animals.
Proof.
  intros w.
  destruct (returns_of_result (@named_arrivals Sample.platform w))
    as (animals & w1 & Hrun); [vm_compute; exact I|].
  exists animals, w1. split; [exact Hrun|].
  pose proof (@main_draws_once_per_named_record Sample.platform
                w animals w1 Hrun) as (Hseed & _ & Hle).
  split; [exact Hseed | exact Hle].
Defined.

(* ================================================================== *)
(** * Further properties: the display *)
(* ================================================================== *)

(** Printing the lines of a text one by one gives the text back, with a
    final line feed added when it lacks one. *)
Lemma printed_text (text : string) :
  printed text
  = if complete newline text then text else (text ++ endl)%string.
Proof.
  unfold printed. induction text as [|x s IH]; [reflexivity|].
  rewrite getlines_cons.
  destruct (Ascii.eqb x newline) eqn:Hx.
  - apply Ascii.eqb_eq in Hx. subst x.
    cbn [map join_all fold_right]. fold (join_all (map (fun line => (line ++ endl)%string) (getlines newline s))).
    rewrite IH. destruct s as [|y s]; [reflexivity|].
    change (complete newline (String newline (String y s)))
      with (complete newline (String y s)).
    destruct (complete newline (String y s)); reflexivity.
  - destruct s as [|y s].
    + simpl. rewrite Hx. reflexivity.
    + pose proof (getlines_nonempty newline y s) as Hne.
      change (complete newline (String x (String y s)))
        with (complete newline (String y s)).
      destruct (getlines newline (String y s)) as [|t ts]; [congruence|].
      cbn [map join_all fold_right] in *.
      change ((String x t ++ endl) ++ fold_right append "" (map (fun line => line ++ endl) ts))%string
        with (String x ((t ++ endl) ++ fold_right append "" (map (fun line => line ++ endl) ts)))%string.
      rewrite IH. destruct (complete newline (String y s)); reflexivity.
Qed.

Lemma cout_put_each_trace (lines : list string) :
  forall w,
    exists w',
      for_each (fun line => cout_put (line ++ endl)) lines w = Returns tt w' /\
      files w' = files w /\ cerr w' = cerr w /\
      cout w'
      = (cout w ++ join_all (map (fun line => line ++ endl) lines))%string.
Proof.
  induction lines as [|l lines IH]; intros w.
  - exists w. cbn. rewrite append_empty_r. repeat split.
  - cbn [for_each]. unfold bind at 1. unfold cout_put at 1.
    destruct (IH (with_cout (cout w ++ (l ++ endl)) w))
      as (w' & Hrun & Hf & He & Ho).
    exists w'. split; [exact Hrun|]. split; [exact Hf|]. split; [exact He|].
    rewrite Ho. cbn [with_cout cout map join_all fold_right].
    rewrite append_assoc. reflexivity.
Qed.

Lemma show_population_trace (w : world) :
  exists w',
    show_population w
    = Returns (match readable_text w "newAnimals.txt" with
               | Some _ => 0%Z
               | None => 1%Z
               end) w' /\
    files w' = files w /\
    match readable_text w "newAnimals.txt" with
    | Some text =>
        cout w'
        = (cout w ++ (endl ++ "Updated Zoo Population:" ++ endl) ++
           printed text)%string /\
        cerr w' = cerr w
    | None =>
        cout w' = cout w /\
        cerr w' = (cerr w ++ "Error opening newAnimals file." ++ endl)%string
    end.
Proof.
  unfold show_population. unfold bind at 1. rewrite ifstream_readable_text.
  destruct (readable_text w "newAnimals.txt") as [text|].
  - unfold bind at 1. unfold cout_put at 1. unfold bind at 1.
    destruct (cout_put_each_trace (getlines newline text)
                (with_cout (cout w ++ (endl ++ "Updated Zoo Population:" ++ endl)) w))
      as (w' & Hrun & Hf & He & Ho).
    rewrite Hrun. exists w'. split; [reflexivity|]. split; [exact Hf|].
    split; [|exact He]. rewrite Ho. cbn [with_cout cout].
    rewrite append_assoc. reflexivity.
  - eexists. split; [reflexivity|]. repeat split.
Qed.

(** X13.  The display step prints the report as it is: after the
    heading, [std::cout] receives the bytes of [newAnimals.txt], with a
    line feed added at the end when the file does not end with one; the
    status is 0 and nothing is written to [std::cerr].  When the file
    cannot be read nothing is printed, one line goes to [std::cerr] and
    the status is 1.  No file is changed either way. *)
Theorem show_population_prints_the_report (w : world) :
  exists status w',
    show_population w = Returns status w' /\
    files w' = files w /\
    match readable_text w "newAnimals.txt" with
    | Some text =>
        status = 0%Z /\
        cout w'
        = (cout w ++ (endl ++ "Updated Zoo Population:" ++ endl) ++
           (if complete newline text then text else text ++ endl))%string /\
        cerr w' = cerr w
    | None =>
        status = 1%Z /\
        cout w' = cout w /\
        cerr w' = (cerr w ++ "Error opening newAnimals file." ++ endl)%string
    end.
Proof.
  destruct (show_population_trace w) as (w' & Hrun & Hf & Hstreams).
  eexists. exists w'. split; [exact Hrun|]. split; [exact Hf|].
  destruct (readable_text w "newAnimals.txt") as [text|].
  - destruct Hstreams as [Ho He]. rewrite <- printed_text. auto.
  - destruct Hstreams as [Ho He]. auto.
Qed.

(* ================================================================== *)
(** * Further properties: the report and the other files *)
(* ================================================================== *)

Lemma named_arrivals_files `{Platform} (w : world) :
  files (final_world (named_arrivals w)) = files w /\
  can_create (final_world (named_arrivals w)) = can_create w.
Proof.
  assert (Hgen : forall o, named_arrivals w = o ->
                           files (final_world o) = files w /\
                           can_create (final_world o) = can_create w).
  { intros o Ho.
    unfold named_arrivals, time, srand in Ho. unfold bind at 1 2 3 in Ho.
    set (w0 := with_rand (to_unsigned (clock w)) 0 w) in Ho.
    destruct (loadAnimalNames_logged "animalNames.txt" w0) as (s1 & Hlog1).
    destruct (loadAnimalNames_returns "animalNames.txt" w0) as (wa & Hnames).
    rewrite Hnames in Hlog1, Ho. cbn [final_world] in Hlog1.
    unfold bind at 1 in Ho.
    destruct (loadArrivingAnimals_logged "arrivingAnimals.txt" wa)
      as (s2 & Hlog2).
    pose proof (logged_trans _ _ _ _ _ Hlog1 Hlog2) as (Hf & Hc & _).
    destruct (loadArrivingAnimals "arrivingAnimals.txt" wa)
      as [loaded wb|e wb]; cbn [final_world] in Hf, Hc.
    - destruct (name_all_outcome
                  (fst (names_after
                          (lines_of (readable_text w0 "animalNames.txt"))))
                  loaded wb)
        as (animals' & w' & Hrun & _ & Hf' & Hc' & _).
      unfold name_all in Hrun. rewrite Hrun in Ho. subst o.
      cbn [final_world]. rewrite Hf', Hc'. split; [exact Hf | exact Hc].
    - subst o. cbn [final_world]. split; [exact Hf | exact Hc]. }
  apply Hgen. reflexivity.
Qed.

(** X14.  When [newAnimals.txt] cannot be opened for appending (it is
    not writable, or it is absent and cannot be created) the records of
    the run are lost: [main] changes no file, writes one error line for
    the failed opening, and still prints the success message.  The exit
    status and the rest of the output are those of the display step on
    the unchanged report. *)
Theorem main_without_writable_report `{Platform}
  (w : world) (animals : list Animal) (w1 : world) :
  append_target w "newAnimals.txt" = None ->
  named_arrivals w = Returns animals w1 ->
  exists status w',
    main w = Returns status w' /\
    files w' = files w /\
    match readable_text w "newAnimals.txt" with
    | Some text =>
        status = 0%Z /\
        cout w'
        = (cout w ++ ("Zoo population updated successfully." ++ endl) ++
           (endl ++ "Updated Zoo Population:" ++ endl) ++
           (if complete newline text then text else text ++ endl))%string /\
        cerr w'
        = (cerr w1 ++
           "Error opening file for writing: newAnimals.txt" ++ endl)%string
    | None =>
        status = 1%Z /\
        cout w'
        = (cout w ++ "Zoo population updated successfully." ++ endl)%string /\
        cerr w'
        = (cerr w1 ++
           ("Error opening file for writing: newAnimals.txt" ++ endl) ++
           "Error opening newAnimals file." ++ endl)%string
    end.
Proof.
  intros Htarget Hrun.
  destruct (named_arrivals_trace w animals w1 Hrun)
    as (Hf & Hc & _ & Ho & _).
  rewrite <- (append_target_same w w1 _ Hf Hc) in Htarget.
  unfold main. unfold bind at 1. rewrite Hrun. unfold bind at 1.
  rewrite (updateZooPopulation_not_opened "newAnimals.txt" animals w1 Htarget).
  unfold bind at 1. unfold cout_put at 1.
  set (w2 := with_cerr _ w1). set (w3 := with_cout _ w2).
  destruct (show_population_trace w3) as (w' & Hshow & Hf' & Hstreams).
  assert (Hread : readable_text w3 "newAnimals.txt"
                  = readable_text w "newAnimals.txt").
  { unfold readable_text. change (files w3) with (files w1). rewrite Hf.
    reflexivity. }
  rewrite Hread in Hshow, Hstreams.
  eexists. exists w'. split; [exact Hshow|].
  split; [rewrite Hf'; exact Hf|].
  destruct (readable_text w "newAnimals.txt") as [text|].
  - destruct Hstreams as [Hcout Hcerr]. split; [reflexivity|].
    rewrite Hcout, Hcerr. unfold w3, w2. cbn [with_cout with_cerr cout cerr].
    rewrite Ho, printed_text, !append_assoc. split; reflexivity.
  - destruct Hstreams as [Hcout Hcerr]. split; [reflexivity|].
    rewrite Hcout, Hcerr. unfold w3, w2. cbn [with_cout with_cerr cout cerr].
    rewrite Ho, !append_assoc. split; reflexivity.
Qed.

Lemma main_without_writable_report_witness :
  let w := Sample.start
             (Sample.directory Sample.names_txt Sample.arrivals_txt
                (Some (read_only ("kept" ++ endl))))
             1000 in
  append_target w "newAnimals.txt" = None /\
  readable_text w "newAnimals.txt" = Some ("kept" ++ endl)%string /\
  exists animals w1 w',
    @named_arrivals Sample.platform w = Returns animals w1 /\
    @main Sample.platform w = Returns 0%Z w' /\
    files w' = files w /\
    cerr w'
    = (cerr w1 ++ "Error opening file for writing: newAnimals.txt" ++ endl)%string.
Proof.
  intros w. split; [reflexivity|]. split; [reflexivity|].
  destruct (returns_of_result (@named_arrivals Sample.platform w))
    as (animals & w1 & Hrun); [vm_compute; exact I|].
  destruct (@main_without_writable_report Sample.platform w animals w1
              eq_refl Hrun)
    as (status & w' & Hmain & Hfiles & Hrest).
  change (readable_text w "newAnimals.txt") with (Some ("kept" ++ endl)%string)
    in Hrest.
  destruct Hrest as (Hstatus & _ & Hcerr).
  exists animals, w1, w'. split; [exact Hrun|].
  split; [rewrite <- Hstatus; exact Hmain|].
  split; [exact Hfiles | exact Hcerr].
Defined.

(** X15.  Whatever happens, [main] reads its two input files without
    changing them: in the world it leaves behind, on return or on an
    uncaught exception, every file other than [newAnimals.txt] is as it
    was. *)
Theorem main_changes_only_the_report `{Platform} (w : world) (p : string) :
  p <> "newAnimals.txt" ->
  files (final_world (main w)) p = files w p.
Proof.
  intros Hp.
  destruct (named_arrivals_files w) as [Hf Hc].
  destruct (named_arrivals w) as [animals w1|e w1] eqn:Hrun;
    cbn [final_world] in Hf, Hc.
  - destruct (updateZooPopulation_returns "newAnimals.txt" animals w1)
      as (w2 & Hupdate).
    destruct (main_after_update w animals w1 w2 Hrun Hupdate)
      as (w' & Hmain & Hf').
    rewrite Hmain. cbn [final_world]. rewrite Hf', <- Hf.
    destruct (append_target w1 "newAnimals.txt") as [f|] eqn:Htarget.
    + destruct (updateZooPopulation_opened "newAnimals.txt" animals w1 f Htarget)
        as (w2' & Hupdate' & _ & Hothers & _).
      rewrite Hupdate in Hupdate'. inversion Hupdate'; subst w2'.
      apply Hothers. exact Hp.
    + rewrite (updateZooPopulation_not_opened _ animals w1 Htarget) in Hupdate.
      inversion Hupdate; reflexivity.
  - rewrite (main_uncaught w e w1 Hrun). cbn [final_world].
    rewrite Hf. reflexivity.
Qed.

Lemma main_changes_only_the_report_witness :
  let w := Sample.start
             (Sample.directory Sample.names_txt Sample.arrivals_txt None) 1000 in
  "animalNames.txt" <> "newAnimals.txt" /\
  files (final_world (@main Sample.platform w)) "animalNames.txt"
  = Some (Sample.readable Sample.names_txt).
Proof.
  intros w.
  assert (Hne : "animalNames.txt" <> "newAnimals.txt") by discriminate.
  split; [exact Hne|].
  exact (@main_changes_only_the_report Sample.platform w "animalNames.txt" Hne).
Defined.

(** X16.  Appending composes: writing a list of records and then a
    second list leaves the report exactly as writing the two lists
    joined would. *)
Theorem updateZooPopulation_composes `{Platform}
  (filename : string) (first second : list Animal) (w : world) (f : file) :
  append_target w filename = Some f ->
  exists w1 w2 w12,
    updateZooPopulation filename first w = Returns tt w1 /\
    updateZooPopulation filename second w1 = Returns tt w2 /\
    updateZooPopulation filename (first ++ second) w = Returns tt w12 /\
    files w2 filename = files w12 filename /\
    files w12 filename
    = Some (with_data f
              (f_data f ++ join_all (map record_line first)
                        ++ join_all (map record_line second))).
Proof.
  intros Htarget.
  destruct (updateZooPopulation_opened filename first w f Htarget)
    as (w1 & Hrun1 & Hdata1 & _).
  set (f1 := with_data f (f_data f ++ join_all (map record_line first))) in *.
  assert (Htarget1 : append_target w1 filename = Some f1).
  { apply append_target_existing; [exact Hdata1|].
    exact (append_target_writable _ _ _ Htarget). }
  destruct (updateZooPopulation_opened filename second w1 f1 Htarget1)
    as (w2 & Hrun2 & Hdata2 & _).
  destruct (updateZooPopulation_opened filename (first ++ second) w f Htarget)
    as (w12 & Hrun12 & Hdata12 & _).
  exists w1, w2, w12. split; [exact Hrun1|]. split; [exact Hrun2|].
  split; [exact Hrun12|].
  assert (Heq : with_data f1 (f_data f1 ++ join_all (map record_line second))
                = with_data f
                    (f_data f ++ join_all (map record_line first)
                              ++ join_all (map record_line second))).
  { unfold f1, with_data. cbn [f_data f_read f_write].
    rewrite append_assoc. reflexivity. }
  rewrite Hdata2, Hdata12, map_app, join_all_app, Heq. split; reflexivity.
Qed.

Lemma updateZooPopulation_composes_witness :
  let w := Sample.start (fun _ => None) 0 in
  append_target w "newAnimals.txt"
  = Some {| f_data := ""; f_read := true; f_write := true |} /\
  exists w1 w2 w12,
    @updateZooPopulation Sample.platform "newAnimals.txt"
      [@hyena Sample.platform 455%Z] w = Returns tt w1 /\
    @updateZooPopulation Sample.platform "newAnimals.txt"
      [set_name (@hyena Sample.platform 455%Z) "Spot"] w1 = Returns tt w2 /\
    @updateZooPopulation Sample.platform "newAnimals.txt"
      ([@hyena Sample.platform 455%Z] ++ [set_name (@hyena Sample.platform 455%Z) "Spot"]) w = Returns tt w12 /\
    files w2 "newAnimals.txt" = files w12 "newAnimals.txt".
Proof.
  intros w. split; [reflexivity|].
  destruct (@updateZooPopulation_composes Sample.platform "newAnimals.txt"
              [@hyena Sample.platform 455%Z] [set_name (@hyena Sample.platform 455%Z) "Spot"] w _ eq_refl)
    as (w1 & w2 & w12 & H1 & H2 & H12 & Hsame & _).
  exists w1, w2, w12. repeat split; assumption.
Defined.

(* ================================================================== *)
(** * Further properties: ages *)
(* ================================================================== *)

Lemma digits_value_digit (c : ascii) (s : string) (acc k : Z) :
  isdigit c = true ->
  Z.of_nat (nat_of_ascii c - 48) = k ->
  digits_value acc (String c s) = digits_value (10 * acc + k) s.
Proof. intros Hc Hk. cbn [digits_value]. rewrite Hc, Hk. reflexivity. Qed.

Lemma digits_value_acc (d : Decimal.uint) :
  forall acc : positive,
    digits_value (Zpos acc) (NilEmpty.string_of_uint d)
    = Zpos (Pos.of_uint_acc d acc).
Proof.
  induction d; intros acc; cbn [NilEmpty.string_of_uint Pos.of_uint_acc];
    [reflexivity | ..];
    match goal with
    | |- context [digits_value ?a (String ?c ?s)] =>
        let k := eval vm_compute in (Z.of_nat (nat_of_ascii c - 48)) in
        rewrite (digits_value_digit c s a k eq_refl eq_refl)
    end;
    rewrite <- IHd; f_equal; lia.
Qed.

Lemma digits_value_uint (d : Decimal.uint) :
  digits_value 0 (NilEmpty.string_of_uint d) = Z.of_N (Pos.of_uint d).
Proof.
  induction d; cbn [NilEmpty.string_of_uint Pos.of_uint];
    try reflexivity;
    match goal with
    | |- context [digits_value ?a (String ?c ?s)] =>
        let k := eval vm_compute in (Z.of_nat (nat_of_ascii c - 48)) in
        rewrite (digits_value_digit c s a k eq_refl eq_refl)
    end;
    first [exact IHd | apply digits_value_acc].
Qed.

(** A numeral without sign is read by [stoi] as the number it
    denotes. *)
Lemma stoi_numeral (d : Decimal.uint) :
  d <> Decimal.Nil ->
  stoi (NilEmpty.string_of_uint d)
  = (if fits_int (Z.of_N (Pos.of_uint d))
     then inr (Z.of_N (Pos.of_uint d)) else inl out_of_range) /\
  stoi (String "-" (NilEmpty.string_of_uint d))
  = (if fits_int (- Z.of_N (Pos.of_uint d))
     then inr (- Z.of_N (Pos.of_uint d))%Z else inl out_of_range).
Proof.
  intros Hd. rewrite <- (digits_value_uint d).
  destruct d; [congruence | ..]; split; reflexivity.
Qed.

(** X17.  Reading back a printed [int] gives the same number: [stoi]
    applied to the text that [operator<<] writes for [n] returns [n]
    when [n] fits an [int], and throws [out_of_range] otherwise. *)
Theorem stoi_reads_what_put_int_writes (n : Z) :
  stoi (put_int n)
  = if fits_int n then inr n else inl out_of_range.
Proof.
  unfold put_int, NilZero.string_of_int, NilZero.string_of_uint.
  destruct n as [|p|p]; cbn [Z.to_int].
  - reflexivity.
  - pose proof (DecimalPos.Unsigned.to_uint_nonnil p) as Hne.
    pose proof (DecimalPos.Unsigned.of_to p) as Hof.
    destruct (stoi_numeral (Pos.to_uint p) Hne) as [Hstoi _].
    rewrite Hof in Hstoi. cbn [Z.of_N] in Hstoi.
    destruct (Pos.to_uint p); [congruence | exact Hstoi ..].
  - pose proof (DecimalPos.Unsigned.to_uint_nonnil p) as Hne.
    pose proof (DecimalPos.Unsigned.of_to p) as Hof.
    destruct (stoi_numeral (Pos.to_uint p) Hne) as [_ Hstoi].
    rewrite Hof in Hstoi. cbn [Z.of_N Z.opp] in Hstoi.
    destruct (Pos.to_uint p); [congruence | exact Hstoi ..].
Qed.


Lemma stoi_fits (s : string) (v : Z) : stoi s = inr v -> fits_int v = true.
Proof.
  unfold stoi, fits_int.
  destruct (match skip_ws s with
            | String "-"%char s' => (true, s')
            | String "+"%char s' => (false, s')
            | _ => (false, skip_ws s)
            end) as [neg s2].
  destruct (starts_with_digit s2); [|discriminate].
  destruct neg.
  - destruct ((INT_MIN <=? - digits_value 0 s2)
              && (- digits_value 0 s2 <=? INT_MAX))%Z eqn:E; [|discriminate].
    intros Heq; inversion Heq; subst; exact E.
  - destruct ((INT_MIN <=? digits_value 0 s2)
              && (digits_value 0 s2 <=? INT_MAX))%Z eqn:E; [|discriminate].
    intros Heq; inversion Heq; subst; exact E.
Qed.

Section Records.

Context `{Platform}.

Variable c : ascii.
Hypothesis c_not_space : c <> " "%char.

Lemma record_of_absent (line : string) (animal : Animal) :
  Forall (fun t => mem_char c t = false) (fields line) ->
  record_of line animal ->
  mem_char c (species animal) = false /\
  mem_char c (birthSeason animal) = false /\
  mem_char c (color animal) = false /\
  mem_char c (origin animal) = false.
Proof.
  unfold record_of, make_animal. intros Hparts.
  pose proof (absent_part c 0 _ Hparts) as H0.
  unfold extract_word.
  pose proof (absent_take_word c _ (absent_skip_ws c _ H0)) as Hunread.
  destruct (take_word (skip_ws (part 0 (fields line)))) as [ageStr unread].
  cbn [snd] in Hunread.
  destruct (stoi ageStr) as [e|n]; [discriminate|].
  destruct (stod (part 3 (fields line))) as [e|d]; [discriminate|].
  intros Heq. inversion Heq; subst animal; clear Heq.
  cbn [species birthSeason color origin].
  split; [|split; [|split]].
  - apply absent_trim. destruct unread as [|x unread]; [reflexivity|].
    cbn [getline].
    pose proof (absent_read_until c newline (String x unread) Hunread)
      as [Hs _].
    destruct (read_until newline (String x unread)). exact Hs.
  - apply absent_part. exact Hparts.
  - apply absent_part. exact Hparts.
  - rewrite mem_char_append. cbn [mem_char].
    rewrite (absent_part c 4 _ Hparts), (absent_part c 5 _ Hparts).
    destruct (Ascii.eqb_spec c " "%char); [contradiction | reflexivity].
Qed.

End Records.

Lemma fields_without_comma (line : string) :
  Forall (fun t => mem_char comma t = false) (fields line).
Proof.
  unfold fields. apply Forall_map.
  eapply Forall_impl; [|apply (getlines_clean comma)].
  intros t Ht. apply absent_trim. exact Ht.
Qed.

(** X18.  Every record the arrival loader builds has an age within the
    range of [int] (negative ages included), a species without a blank
    at either end, no comma in its species, birth season, colour or
    origin, and an empty name. *)
Theorem loaded_record_is_well_formed `{Platform}
  (line : string) (animal : Animal) :
  record_of line animal ->
  fits_int (age animal) = true /\
  starts_blank (species animal) = false /\
  ends_blank (species animal) = false /\
  mem_char comma (species animal) = false /\
  mem_char comma (birthSeason animal) = false /\
  mem_char comma (color animal) = false /\
  mem_char comma (origin animal) = false /\
  name animal = "".
Proof.
  intros Hrec.
  assert (Hcomma : comma <> " "%char) by discriminate.
  destruct (record_of_absent comma Hcomma line animal
              (fields_without_comma line) Hrec) as (Hs & Hb & Hc & Ho).
  unfold record_of, make_animal in Hrec.
  destruct (extract_word (part 0 (fields line))) as [ageStr unread].
  destruct (stoi ageStr) as [e|n] eqn:Hage; [discriminate|].
  destruct (stod (part 3 (fields line))) as [e|d]; [discriminate|].
  inversion Hrec; subst animal; clear Hrec.
  cbn [age species name] in *.
  pose proof (stoi_fits ageStr n Hage) as Hfits.
  destruct (trim_ends
              match getline newline unread with
              | Some (s, _) => s
              | None => ""
              end) as [Hstart Hend].
  repeat split; assumption.
Qed.

Lemma loaded_record_is_well_formed_witness :
  exists animal,
    @record_of Sample.platform "-3 lion cub , x,, 12,e,f" animal /\
    age animal = (-3)%Z /\ species animal = "lion cub" /\
    fits_int (age animal) = true.
Proof.
  eexists. split; [reflexivity|]. split; [reflexivity|].
  split; [reflexivity|].
  exact (proj1 (@loaded_record_is_well_formed Sample.platform
                  "-3 lion cub , x,, 12,e,f" _ eq_refl)).
Defined.

(* ================================================================== *)
(** * Further properties: the shape of a report line *)
(* ================================================================== *)








(* ================================================================== *)
(** * Further properties: what the loaders depend on *)
(* ================================================================== *)

Lemma arrival_lines_result `{Platform} (lines : list string) :
  forall (animals : list Animal) (w1 w2 : world),
    result (fold_io arrival_line lines animals w1)
    = result (fold_io arrival_line lines animals w2).
Proof.
  induction lines as [|l lines IH]; intros animals w1 w2; [reflexivity|].
  cbn [fold_io]. unfold bind.
  destruct (line_kinds l) as [(Hb & _) | [(_ & Hs & _) | (_ & _ & H6)]].
  - rewrite !arrival_line_blank by exact Hb. apply IH.
  - rewrite !arrival_line_too_short by exact Hs. apply IH.
  - rewrite !arrival_line_six_fields by exact H6.
    destruct (make_animal (fields l)); [reflexivity | apply IH].
Qed.

(** X20.  What either loader hands back (the catalogue; the list of
    records or the exception) is determined by the text found under the
    path alone: the clock, the random number generator, the console
    streams and the other files play no part, so loading the same text
    again gives the same result. *)
Theorem loaders_depend_on_the_text_only `{Platform}
  (path1 path2 : string) (w1 w2 : world) :
  readable_text w1 path1 = readable_text w2 path2 ->
  result (loadAnimalNames path1 w1) = result (loadAnimalNames path2 w2) /\
  result (loadArrivingAnimals path1 w1)
  = result (loadArrivingAnimals path2 w2).
Proof.
  intros Hsame. split.
  - destruct (loadAnimalNames_returns path1 w1) as (w1' & ->).
    destruct (loadAnimalNames_returns path2 w2) as (w2' & ->).
    cbn [result]. rewrite Hsame. reflexivity.
  - unfold loadArrivingAnimals, bind. rewrite !ifstream_readable_text, Hsame.
    destruct (readable_text w2 path2) as [text|];
      [apply arrival_lines_result | reflexivity].
Qed.

Lemma loaders_depend_on_the_text_only_witness :
  let w1 := Sample.start (Sample.directory "" mixed_arrivals_txt None) 0 in
  let w2 := Sample.start
              (Sample.directory mixed_arrivals_txt Sample.names_txt None) 77 in
  readable_text w1 "arrivingAnimals.txt" = readable_text w2 "animalNames.txt" /\
  result (@loadArrivingAnimals Sample.platform "arrivingAnimals.txt" w1)
  = result (@loadArrivingAnimals Sample.platform "animalNames.txt" w2).
Proof.
  intros w1 w2. split; [reflexivity|].
  exact (proj2 (@loaders_depend_on_the_text_only Sample.platform
                  "arrivingAnimals.txt" "animalNames.txt" w1 w2 eq_refl)).
Defined.

(* ================================================================== *)
(** * Further properties: an arrival without species *)
(* ================================================================== *)

Lemma transform_empty (f : ascii -> ascii) (s : string) :
  transform f s = "" -> s = "".
Proof. destruct s; [reflexivity | discriminate]. Qed.

Lemma In_map_find (k : string) (v : list string) (m : catalog) :
  In (k, v) m -> map_find k m <> None.
Proof.
  induction m as [|[k' v'] m IH]; simpl; [tauto|].
  intros [Heq | Hin].
  - inversion Heq; subst. rewrite String.eqb_refl. discriminate.
  - destruct (String.eqb k' k); [discriminate | exact (IH Hin)].
Qed.

(** X21.  An arrival whose species is empty (its first field holds
    nothing after the age) is never given a name of the catalogue: in
    every catalogue that [loadAnimalNames] returns, [assignName] answers
    ["Unnamed"] for the empty species, without drawing. *)
Theorem empty_species_is_unnamed `{Platform} (filename : string) (w : world) :
  exists m w',
    loadAnimalNames filename w = Returns m w' /\
    forall w2 : world, assignName "" m w2 = Returns "Unnamed" w2.
Proof.
  destruct (loadAnimalNames_returns filename w) as (w' & Hrun).
  eexists. exists w'. split; [exact Hrun|].
  set (m := fst (names_after (lines_of (readable_text w filename)))).
  intros w2.
  destruct (lookup_species "" m) as [[k c]|] eqn:Hit;
    [|apply assignName_no_entry; exact Hit].
  assert (Hexact : map_find "" m = Some ("", c)).
  { destruct (map_find "" m) as [[k' c']|] eqn:Hf.
    - pose proof (map_find_key _ _ _ _ Hf) as ->.
      rewrite (lookup_species_exact "" m _ Hf) in Hit.
      inversion Hit; subst. reflexivity.
    - rewrite (lookup_species_fallback "" m Hf) in Hit.
      apply find_some in Hit. destruct Hit as [Hin Hmatch].
      unfold same_ignoring_case in Hmatch. cbn [fst transform] in Hmatch.
      apply String.eqb_eq in Hmatch. apply transform_empty in Hmatch.
      subst k. apply In_map_find in Hin. congruence. }
  pose proof (names_after_empty_species _ c Hexact) as ->.
  apply lookup_species_exact in Hexact.
  exact (assignName_no_candidates "" "" m w2 Hexact).
Qed.
